(** * My-portfolio: the behavioural logic of [src/app/page.tsx]

    The page has three pieces of logic: the progressive counter
    ([AnimatedCounter]), the scroll-driven active-section tracker
    ([handleScroll] inside [Portfolio]) and the featured/other split of the
    project list.  Each is embedded below as an executable Rocq function and
    the properties of the specification are stated over these functions. *)

From Stdlib Require Import ZArith QArith Qround List String Ascii Bool Lia Lqa.
From Stdlib Require Import Permutation Sorted.
From Stdlib Require Import Floats.SpecFloat.
Import ListNotations.

Local Open Scope Z_scope.

(** * JavaScript numbers

    The component code only uses [+], [/], [>=], [Math.floor] and integer
    literals.  These operations are collected in a dictionary so that the
    component is written once and read under two interpretations of
    [number]: exact rationals (the "real-valued accumulator" of the
    specification) and IEEE-754 binary64 (what the JavaScript engine runs). *)

Class JSNumber (num : Type) : Type := {
  lit : Z -> num;                 (* an integer literal *)
  add : num -> num -> num;        (* a + b *)
  div : num -> num -> num;        (* a / b *)
  geb : num -> num -> bool;       (* a >= b *)
  ltb : num -> num -> bool;       (* a < b *)
  floor : num -> num              (* Math.floor(a) *)
}.

(** Exact arithmetic over the rationals. *)
#[export] Instance Exact : JSNumber Q := {
  lit := inject_Z;
  add := Qplus;
  div := Qdiv;
  geb := fun a b => Qle_bool b a;
  ltb := fun a b => negb (Qle_bool b a);
  floor := fun a => inject_Z (Qfloor a)
}.

(** IEEE-754 double precision, on the Standard Library's executable
    specification of floating-point numbers. *)
Module B64.

Definition prec : Z := 53.
Definition emax : Z := 1024.

Definition of_Z (z : Z) : spec_float := binary_normalize prec emax z 0 false.

(** [Math.floor]: zeros, infinities and NaN are returned as they are; a
    finite number with a non-negative exponent is already an integer;
    otherwise the signed mantissa is shifted right (rounding towards minus
    infinity) and the integer obtained is converted back, keeping the sign
    of the argument when the result is zero. *)
Definition floor (x : spec_float) : spec_float :=
  match x with
  | S754_finite s m e =>
      if 0 <=? e then x
      else binary_normalize prec emax
             (Z.shiftr (cond_Zopp s (Zpos m)) (- e)) 0 s
  | _ => x
  end.

End B64.

#[export] Instance Binary64 : JSNumber spec_float := {
  lit := B64.of_Z;
  add := SFadd B64.prec B64.emax;
  div := SFdiv B64.prec B64.emax;
  geb := fun a b => SFleb b a;
  ltb := SFltb;
  floor := B64.floor
}.

(** * The progressive counter ([AnimatedCounter]) *)

Section AnimatedCounter.

Context {num : Type} {N : JSNumber num}.

(** The interval created by [setInterval]: the closure variable [start]
    and whether [clearInterval] has been called on it. *)
Record Timer : Type := mkTimer {
  start : num;
  cleared : bool
}.

(** The component instance: the React state [count], the value of the
    [isInView] hook at the last render and the interval of the last run of
    the effect, if the effect has created one. *)
Record Counter : Type := mkCounter {
  count : num;
  isInView : bool;
  timer : option Timer
}.

(** The prop [value]; it is fixed for the life of the component (the only
    call site passes the literal 10). *)
Variable value : num.

Definition end_ : num := value.
Definition duration : num := lit 2000.
Definition increment : num := div end_ (div duration (lit 16)).

(** [useState(0)] and a hook that starts out of view: nothing is created
    by the first run of the effect. *)
Definition mount : Counter :=
  {| count := lit 0; isInView := false; timer := None |}.

(** The callback given to [setInterval].  A cleared interval does not fire
    any more. *)
Definition tick (c : Counter) : Counter :=
  match timer c with
  | Some t =>
      if cleared t then c
      else
        let start' := add (start t) increment in
        if geb start' end_ then
          {| count := end_; isInView := isInView c;
             timer := Some {| start := start'; cleared := true |} |}
        else
          {| count := floor start'; isInView := isInView c;
             timer := Some {| start := start'; cleared := false |} |}
  | None => c
  end.

(** Is there an interval that will fire? *)
Definition running (c : Counter) : bool :=
  match timer c with
  | Some t => negb (cleared t)
  | None => false
  end.

(** The clean-up function returned by the effect: [clearInterval(timer)]. *)
Definition cleanup (c : Counter) : Counter :=
  match timer c with
  | Some t =>
      {| count := count c; isInView := isInView c;
         timer := Some {| start := start t; cleared := true |} |}
  | None => c
  end.

(** The body of the effect: [if (isInView) { let start = 0 ... }]. *)
Definition effect (c : Counter) : Counter :=
  if isInView c then
    {| count := count c; isInView := true;
       timer := Some {| start := lit 0; cleared := false |} |}
  else c.

(** Modelled from the spec: [useInView(ref, { once: true })] is a hook of
    the framer-motion package, not of this repository; the spec calls it "a
    one-shot visibility observation".  Given the value the hook had at the
    last render and the visibility reported by the observer, it gives the
    value at the next render: once true, it stays true. *)
Definition useInView_once (previous signal : bool) : bool :=
  previous || signal.

(** A visibility signal re-renders the component.  React runs the effect
    again (clean-up first) only if a dependency of [[isInView, value]] has
    changed; [value] is fixed. *)
Definition visibility (signal : bool) (c : Counter) : Counter :=
  let v := useInView_once (isInView c) signal in
  if Bool.eqb v (isInView c) then c
  else
    let c' := cleanup c in
    effect {| count := count c'; isInView := v; timer := timer c' |}.

(** What can happen to a mounted counter. *)
Inductive Event : Type :=
| Visible (signal : bool)
| Tick.

Definition handle (e : Event) (c : Counter) : Counter :=
  match e with
  | Visible b => visibility b c
  | Tick => tick c
  end.

Definition run (es : list Event) (c : Counter) : Counter :=
  fold_left (fun c e => handle e c) es c.

(** The values passed to [setCount], in order, by a list of events: a
    firing of a live interval calls [setCount] exactly once. *)
Fixpoint displayed (es : list Event) (c : Counter) : list num :=
  match es with
  | [] => []
  | e :: es' =>
      let c' := handle e c in
      match e with
      | Tick => if running c then count c' :: displayed es' c'
                else displayed es' c'
      | Visible _ => displayed es' c'
      end
  end.

(** The counter just after its container has become visible for the first
    time. *)
Definition triggered : Counter := visibility true mount.

(** The samples shown when the host fires the interval [n] times after the
    trigger. *)
Definition samples (n : nat) : list num :=
  displayed (repeat Tick n) triggered.

(** The accumulator after [n] firings. *)
Definition accumulator (n : nat) : option num :=
  option_map start (timer (run (repeat Tick n) triggered)).

(** A counter whose interval is live, with accumulator [s] and shown
    value [d]. *)
Definition live (s d : num) : Counter :=
  {| count := d; isInView := true;
     timer := Some {| start := s; cleared := false |} |}.

(** A counter whose interval has been cleared at accumulator [s]. *)
Definition halted (s d : num) : Counter :=
  {| count := d; isInView := true;
     timer := Some {| start := s; cleared := true |} |}.

(** The samples of [n] firings of a live interval with accumulator [s]. *)
Fixpoint ramp (n : nat) (s : num) : list num :=
  match n with
  | O => []
  | S n' =>
      let s' := add s increment in
      if geb s' value then [value] else floor s' :: ramp n' s'
  end.

(** The accumulator as the specification words it: it starts at 0 and the
    increment [target / (duration / interval)] is added on each sample. *)
Definition spec_accumulator (k : nat) : num :=
  Nat.iter k (fun a => add a (div value (div (lit 2000) (lit 16)))) (lit 0).

(** The accumulator of the specification from an arbitrary start. *)
Definition accumulate (k : nat) (s : num) : num :=
  Nat.iter k (fun a => add a increment) s.

(** A one-pass test that the next [n] accumulator values after [s] are all
    below the target. *)
Fixpoint below (n : nat) (s : num) : bool :=
  match n with
  | O => true
  | S n' =>
      let s' := add s increment in
      negb (geb s' value) && below n' s'
  end.

End AnimatedCounter.

Arguments Timer : clear implicits.
Arguments Counter : clear implicits.

(** The counter with target [value] stops exactly at sample [n]: the test
    [start >= end] fails on the accumulator after each of the first [n - 1]
    samples (and on the initial 0) and succeeds after sample [n]; there are
    [n] samples for [n] firings, the last one is the target; further firings
    of the host timer add no sample, and the shown value stays the target. *)
Definition stops_exactly_at {num : Type} {N : JSNumber num}
    (value : num) (n : nat) : Prop :=
  Forall (fun k => exists a, accumulator value k = Some a
                             /\ geb a value = false) (seq 0 n)
  /\ (exists a, accumulator value n = Some a /\ geb a value = true)
  /\ List.length (samples value n) = n
  /\ last (samples value n) (lit 0) = value
  /\ forall m,
       samples value (n + m) = samples value n
       /\ count (run value (repeat Tick (n + m)) triggered) = value
       /\ running (run value (repeat Tick (n + m)) triggered) = false.

(** * The active-section tracker ([handleScroll]) *)

(** What the tracker reads of a DOM element: [offsetTop] and [offsetHeight],
    both integers. *)
Record Element : Type := mkElement {
  offsetTop : Z;
  offsetHeight : Z
}.

(** [document.getElementById]: the element with a given id, if there is
    one. *)
Definition Document : Type := string -> option Element.

Section Tracker.

Context {num : Type} {N : JSNumber num}.

Definition sections : list string :=
  ["home"; "about"; "projects"; "contact"]%string.

(** The test of the inner [if]. *)
Definition hit (element : Element) (scrollPosition : num) : bool :=
  geb scrollPosition (lit (offsetTop element))
  && ltb scrollPosition
       (add (lit (offsetTop element)) (lit (offsetHeight element))).

(** The [for ... of] loop over the remaining section ids; the result is
    the value of the state [activeSection] when the loop is left:
    [setActiveSection(section); break] on the first hit, the value it had
    if the loop runs to its end. *)
Fixpoint scan (doc : Document) (scrollPosition : num)
    (rest : list string) (activeSection : string) : string :=
  match rest with
  | [] => activeSection
  | section :: rest' =>
      match doc section with
      | Some element =>
          if hit element scrollPosition then section
          else scan doc scrollPosition rest' activeSection
      | None => scan doc scrollPosition rest' activeSection
      end
  end.

Definition handleScroll (doc : Document) (scrollY : num)
    (activeSection : string) : string :=
  let scrollPosition := add scrollY (lit 100) in
  scan doc scrollPosition sections activeSection.

(** [useState("home")]. *)
Definition initialSection : string := "home"%string.

(** A page session: the scroll events in order, each with the layout and
    the scroll offset the handler reads when it runs. *)
Definition session (events : list (Document * num)) : string :=
  fold_left (fun active ev => handleScroll (fst ev) (snd ev) active)
    events initialSection.

(** Does the section [id] pass the test of the loop? *)
Definition hits (doc : Document) (scrollPosition : num) (id : string)
    : bool :=
  match doc id with
  | Some element => hit element scrollPosition
  | None => false
  end.

End Tracker.

(** The layout range [[top, top + height)] of an element contains [probe]. *)
Definition in_range (element : Element) (probe : Q) : Prop :=
  (inject_Z (offsetTop element) <= probe
   /\ probe < inject_Z (offsetTop element + offsetHeight element))%Q.

(** The section [id] is laid out and its range contains [probe]. *)
Definition covers (doc : Document) (probe : Q) (id : string) : Prop :=
  exists element, doc id = Some element /\ in_range element probe.

(** A sample layout: four stacked sections and a footer below them. *)
Definition sample_layout : Document :=
  fun s =>
    if String.eqb s "home" then Some (mkElement 0 600)
    else if String.eqb s "about" then Some (mkElement 600 800)
    else if String.eqb s "projects" then Some (mkElement 1400 1200)
    else if String.eqb s "contact" then Some (mkElement 2600 500)
    else None.

(** * The project gallery *)

Record Project : Type := mkProject {
  id : Z;
  title : string;
  description : string;
  image : string;
  technologies : list string;
  github : string;
  demo : string;
  featured : bool
}.

Definition featuredProjects (projects : list Project) : list Project :=
  filter (fun project => featured project) projects.

Definition otherProjects (projects : list Project) : list Project :=
  filter (fun project => negb (featured project)) projects.

(** A project with the given id and flag, its other fields empty. *)
Definition project_stub (n : Z) (flag : bool) : Project :=
  mkProject n EmptyString EmptyString EmptyString []
    EmptyString EmptyString flag.

(** * The rest of the page: navigation, heading, gallery, life cycle *)

(** The entries of the navigation bar, as the literal array of the source. *)
Module Nav.

Record Item : Type := mkItem {
  name : string;
  id : string
}.

End Nav.

Definition navItems : list Nav.Item :=
  [ Nav.mkItem "Home" "home";
    Nav.mkItem "About" "about";
    Nav.mkItem "Work" "projects";
    Nav.mkItem "Contact" "contact" ]%string.

(** What is rendered for one entry: the target of the link, its text,
    whether it gets the colour of the active entry and whether the underline
    element is rendered inside it.  Both tests are
    [activeSection === item.id]. *)
Record NavLink : Type := mkNavLink {
  href : string;
  label : string;
  highlighted : bool;
  underline : bool
}.

Definition renderNav (activeSection : string) : list NavLink :=
  map (fun item =>
         {| href := ("#" ++ Nav.id item)%string;
            label := Nav.name item;
            highlighted := String.eqb activeSection (Nav.id item);
            underline := String.eqb activeSection (Nav.id item) |})
      navItems.

(** [String.prototype.split] with a one-character separator: the pieces
    between the occurrences of the separator, in order; the result always
    has at least one piece. *)
Fixpoint split (separator : ascii) (s : string) : list string :=
  match s with
  | EmptyString => [EmptyString]
  | String c s' =>
      if Ascii.eqb c separator then EmptyString :: split separator s'
      else
        match split separator s' with
        | w :: ws => String c w :: ws
        | [] => [String c EmptyString]
        end
  end.

(** [Array.prototype.join]. *)
Fixpoint join (separator : string) (pieces : list string) : string :=
  match pieces with
  | [] => EmptyString
  | [w] => w
  | w :: ws => (w ++ separator ++ join separator ws)%string
  end.

(** The two parts of the hero heading:
    [greeting.split(" ")[0]] and [greeting.split(" ").slice(1).join(" ")]. *)
Definition greetingFirst (greeting : string) : string :=
  hd EmptyString (split " " greeting).

Definition greetingRest (greeting : string) : string :=
  join " " (tl (split " " greeting)).

(** The text of the heading: the first part, the literal [{" "}], then the
    rest inside the coloured span. *)
Definition heroHeading (greeting : string) : string :=
  (greetingFirst greeting ++ " " ++ greetingRest greeting)%string.

(** Does the string contain the character? *)
Fixpoint contains (c : ascii) (s : string) : bool :=
  match s with
  | EmptyString => false
  | String c' s' => Ascii.eqb c' c || contains c s'
  end.

(** The guard of the "More Projects" block: [otherProjects.length > 0]. *)
Definition showOtherProjects (projects : list Project) : bool :=
  (0 <? List.length (otherProjects projects))%nat.

(** The React keys of the cards of a grid: [key={project.id}]. *)
Definition cardKeys (grid : list Project) : list Z := map id grid.


(** Does the scroll sample make some section pass the test of the loop? *)
Definition matches {num : Type} {N : JSNumber num} (ev : Document * num)
    : Prop :=
  exists s, In s sections /\ hits (fst ev) (add (snd ev) (lit 100)) s = true.

(** The smallest positive double, [2^-1074]. *)
Definition B64_min_positive : spec_float := S754_finite false 1 (-1074).

(** The section [id] is laid out and passes the test of the loop on
    [probe], with the comparisons of the number interpretation:
    [probe >= top] and [probe < top + height]. *)
Definition passes {num : Type} {N : JSNumber num}
    (doc : Document) (probe : num) (id : string) : Prop :=
  exists element,
    doc id = Some element
    /\ geb probe (lit (offsetTop element)) = true
    /\ ltb probe (add (lit (offsetTop element)) (lit (offsetHeight element)))
       = true.

(** The last step of IEEE rounding: a zero, a finite double or, when the
    exponent is too large, an infinity. *)
Definition B64_pack (s : bool) (m e : Z) : spec_float :=
  match m with
  | Z0 => S754_zero s
  | Zpos p => if e <=? 971 then S754_finite s p e else S754_infinity s
  | Zneg _ => S754_nan
  end.

(** The magnitude of a double as an integer multiple of [2^-1074]: [0] for
    zeros and, for infinities, [2^2100], which is above every finite
    double. *)
Definition B64_infinite : Z := 2 ^ 2100.

Definition B64_magnitude (x : spec_float) : Z :=
  match x with
  | S754_finite _ m e => Zpos m * 2 ^ (e + 1074)
  | S754_infinity _ => B64_infinite
  | _ => 0
  end.

(** The doubles that are a zero, positive and well formed, or plus
    infinity. *)
Definition B64_nonneg (x : spec_float) : Prop :=
  match x with
  | S754_zero _ => True
  | S754_finite false m e => bounded B64.prec B64.emax m e = true
  | S754_infinity false => True
  | _ => False
  end.

(** The number of steps [duration / 16 = 125] as a double. *)
Definition B64_steps : spec_float := S754_finite false 8796093022208000 (-46).

(** The double just below 500: [500 - 2^-44]. *)
Definition B64_below_500 : spec_float :=
  S754_finite false 8796093022207999 (-44).

(** * Properties of the tracker *)

Section TrackerFacts.

Context {num : Type} {N : JSNumber num}.

(** The loop is a search for the first id that passes the test. *)
Lemma scan_find (doc : Document) (p : num) (rest : list string)
    (active : string) :
  scan doc p rest active =
  match find (hits doc p) rest with
  | Some id => id
  | None => active
  end.
Proof.
  induction rest as [|s rest IH]; simpl; [reflexivity|].
  unfold hits at 1.
  destruct (doc s) as [e|]; [destruct (hit e p)|]; auto.
Qed.

Lemma scan_cases (doc : Document) (p : num) (rest : list string)
    (active : string) :
  scan doc p rest active = active \/ In (scan doc p rest active) rest.
Proof.
  rewrite scan_find.
  destruct (find (hits doc p) rest) as [id|] eqn:F; [right|left; reflexivity].
  apply find_some in F. tauto.
Qed.

Lemma handleScroll_cases (doc : Document) (y : num) (active : string) :
  handleScroll doc y active = active
  \/ In (handleScroll doc y active) sections.
Proof. apply scan_cases. Qed.

Lemma session_snoc (events : list (Document * num)) (ev : Document * num) :
  session (events ++ [ev]) =
  handleScroll (fst ev) (snd ev) (session events).
Proof. unfold session. rewrite fold_left_app. reflexivity. Qed.

End TrackerFacts.

(** The boolean test of the loop is the property [passes]. *)
Lemma hits_passes {num : Type} {N : JSNumber num}
    (doc : Document) (probe : num) (s : string) :
  hits doc probe s = true <-> passes doc probe s.
Proof.
  unfold hits, passes, hit. destruct (doc s) as [e|].
  - rewrite andb_true_iff. split.
    + intros [H1 H2]. exists e. auto.
    + intros [e' [E [H1 H2]]]. injection E as <-. auto.
  - split; [discriminate|]. intros [e' [E _]]. discriminate.
Qed.

Lemma find_first (A : Type) (f : A -> bool) (before after : list A) (x : A) :
  f x = true ->
  (forall y, In y before -> f y = false) ->
  find f (before ++ x :: after) = Some x.
Proof.
  intros Hx Hb. induction before as [|b before IH]; simpl.
  - rewrite Hx. reflexivity.
  - rewrite (Hb b (or_introl eq_refl)). apply IH.
    intros y Hy. apply Hb. right. exact Hy.
Qed.

(** C1 (active-section determinism).  Under any interpretation of numbers,
    in particular under the doubles the page computes with: whatever the
    layout, the scroll offset and the previous state, when a section of the
    priority list [home, about, projects, contact] is laid out and contains
    the probe (the probe is [scrollY + 100] as the interpretation computes
    it, the range test is [probe >= top] and [probe < top + height]) and no
    section before it in the list does, the handler sets the active section
    to that section: the result is a function of the layout and the offset
    alone. *)
Theorem handleScroll_first_containing
    (num : Type) (N : JSNumber num)
    (doc : Document) (scrollY : num) (previous : string)
    (before after : list string) (s : string) :
  sections = before ++ s :: after ->
  passes doc (add scrollY (lit 100)) s ->
  (forall t, In t before -> ~ passes doc (add scrollY (lit 100)) t) ->
  handleScroll doc scrollY previous = s.
Proof.
  intros Hsplit Hs Hbefore.
  unfold handleScroll. rewrite scan_find, Hsplit.
  rewrite (find_first _ _ before after s); [reflexivity| |].
  - apply hits_passes. exact Hs.
  - intros t Ht.
    destruct (hits doc (add scrollY (lit 100)) t) eqn:E; [|reflexivity].
    apply hits_passes in E. destruct (Hbefore t Ht E).
Qed.

(** Under doubles, at the scroll offset just below 500 the probe rounds up
    to 600: "home", whose range ends at 600, does not contain it and
    "about", whose range starts there, does. *)
Lemma handleScroll_first_containing_witness :
  handleScroll sample_layout B64_below_500 "contact"%string
  = "about"%string.
Proof.
  apply (handleScroll_first_containing spec_float Binary64
           sample_layout B64_below_500 "contact"%string
           ["home"%string] ["projects"%string; "contact"%string]).
  - reflexivity.
  - exists (mkElement 600 800). repeat split; reflexivity.
  - intros t [<- | []] [e [E [_ H]]]. injection E as <-.
    vm_compute in H. discriminate.
Defined.

(** C4 (active-section stickiness).  Under any interpretation of numbers, in
    particular under doubles: when no known section is laid out with a range
    that contains the probe as the interpretation computes it, the handler
    leaves the active section as it was. *)
Theorem handleScroll_sticky
    (num : Type) (N : JSNumber num)
    (doc : Document) (scrollY : num) (previous : string) :
  (forall s, In s sections -> ~ passes doc (add scrollY (lit 100)) s) ->
  handleScroll doc scrollY previous = previous.
Proof.
  intro Hnone. unfold handleScroll. rewrite scan_find.
  destruct (find _ _) as [s|] eqn:F; [|reflexivity].
  apply find_some in F. destruct F as [Hin Hhit].
  apply hits_passes in Hhit. destruct (Hnone s Hin Hhit).
Qed.

Lemma handleScroll_sticky_witness :
  handleScroll sample_layout (B64.of_Z 3200) "projects"%string
  = "projects"%string.
Proof.
  apply (handleScroll_sticky spec_float Binary64
           sample_layout (B64.of_Z 3200) "projects"%string).
  intros s Hin [e [E [H1 H2]]]. simpl in Hin.
  destruct Hin as [<- | [<- | [<- | [<- | []]]]];
    injection E as <-; vm_compute in H2; discriminate.
Defined.

(** ** The exact reading of the range test

    Over the rationals (the reading of the specification, in which the probe
    is the exact sum) the test of the loop is the range test
    [top <= probe < top + height]. *)
Lemma hit_in_range (element : Element) (probe : Q) :
  hit element probe = true <-> in_range element probe.
Proof.
  unfold hit, in_range; simpl.
  rewrite andb_true_iff, negb_true_iff, Qle_bool_iff.
  rewrite inject_Z_plus.
  split; intros [H1 H2]; split; try assumption.
  - apply Qnot_le_lt. intro H. apply Qle_bool_iff in H. congruence.
  - destruct (Qle_bool _ _) eqn:E; [|reflexivity].
    apply Qle_bool_iff in E. exfalso. apply (Qlt_not_le _ _ H2 E).
Qed.

Lemma hits_covers (doc : Document) (probe : Q) (s : string) :
  hits doc probe s = true <-> covers doc probe s.
Proof.
  unfold hits, covers. destruct (doc s) as [e|].
  - rewrite hit_in_range. split.
    + intro H. exists e. auto.
    + intros [e' [E H]]. injection E as <-. exact H.
  - split; [discriminate|]. intros [e' [E _]]. discriminate.
Qed.

Lemma passes_covers (doc : Document) (probe : Q) (s : string) :
  passes doc probe s <-> covers doc probe s.
Proof. rewrite <- hits_passes. apply hits_covers. Qed.

(** The exact reading and the doubles of the page part where the sum
    [scrollY + 100] rounds: at the offset just below 500, whose exact probe
    [600 - 2^-44] lies in the range of "home", the handler run on doubles
    selects "about". *)
Lemma Binary64_probe_rounds :
  covers sample_layout (inject_Z 8796093022207999 / inject_Z (2 ^ 44) + 100)%Q
    "home"%string
  /\ handleScroll sample_layout
       (inject_Z 8796093022207999 / inject_Z (2 ^ 44))%Q "contact"%string
     = "home"%string
  /\ handleScroll sample_layout B64_below_500 "contact"%string
     = "about"%string.
Proof.
  split; [|split; reflexivity].
  exists (mkElement 0 600). split; [reflexivity|].
  split; vm_compute; [discriminate | reflexivity].
Qed.

(** C8 (the active section is always a known id).  Under any interpretation
    of numbers: the state starts at ["home"], which is a known id; a scroll
    sample either leaves the state unchanged or sets it to a known id; hence
    after any sequence of scroll samples, each with its own layout and
    offset, the state is one of [home, about, projects, contact]. *)
Theorem activeSection_known (num : Type) (N : JSNumber num) :
  initialSection = "home"%string
  /\ In initialSection sections
  /\ (forall (doc : Document) (scrollY : num) (active : string),
        handleScroll doc scrollY active = active
        \/ In (handleScroll doc scrollY active) sections)
  /\ (forall events : list (Document * num), In (session events) sections).
Proof.
  split; [reflexivity|]. split; [left; reflexivity|].
  split; [apply handleScroll_cases|].
  intro events. induction events as [|ev events IH] using rev_ind.
  - left; reflexivity.
  - rewrite session_snoc.
    destruct (handleScroll_cases (fst ev) (snd ev) (session events)) as [E|H].
    + rewrite E. exact IH.
    + exact H.
Qed.

(** * Properties of the project gallery *)

Lemma filter_split_perm (A : Type) (f : A -> bool) (l : list A) :
  Permutation (filter f l ++ filter (fun x => negb (f x)) l) l.
Proof.
  induction l as [|x l IH]; simpl; [constructor|].
  destruct (f x); simpl.
  - constructor. exact IH.
  - symmetry. apply Permutation_cons_app. symmetry. exact IH.
Qed.

Example partition_example :
  let projects :=
    [project_stub 1 true; project_stub 2 false; project_stub 3 true] in
  map id (featuredProjects projects) = [1; 3]
  /\ map id (otherProjects projects) = [2].
Proof. split; reflexivity. Qed.

(** C5 (project partition).  For every project list: the featured list
    followed by the other list is a rearrangement of the input, so that a
    project is in the input exactly when it is in one of the two; no project
    is in both; a project of the input is in the featured list exactly when
    its flag is true and in the other list exactly when it is false.  Both
    lists are values of pure functions of the input list, which is not
    changed. *)
Theorem projects_partition (projects : list Project) :
  Permutation (featuredProjects projects ++ otherProjects projects) projects
  /\ (forall p, In p projects <->
                In p (featuredProjects projects)
                \/ In p (otherProjects projects))
  /\ (forall p, ~ (In p (featuredProjects projects)
                   /\ In p (otherProjects projects)))
  /\ (forall p, In p (featuredProjects projects) <->
                In p projects /\ featured p = true)
  /\ (forall p, In p (otherProjects projects) <->
                In p projects /\ featured p = false).
Proof.
  unfold featuredProjects, otherProjects.
  split; [apply filter_split_perm|].
  split; [|split; [|split]]; intro p; rewrite ?filter_In, ?negb_true_iff.
  - destruct (featured p); tauto.
  - intros [[_ H1] [_ H2]]. congruence.
  - tauto.
  - tauto.
Qed.

(** * Properties of the counter, under any interpretation of numbers *)

Section CounterFacts.

Context {num : Type} {N : JSNumber num}.
Variable value : num.

Lemma triggered_live : triggered = live (lit 0) (lit 0).
Proof. reflexivity. Qed.

Lemma tick_halted (c : Counter num) : running c = false -> tick value c = c.
Proof.
  unfold running, tick. destruct (timer c) as [t|]; [|reflexivity].
  destruct (cleared t); [reflexivity|discriminate].
Qed.

Lemma run_halted (n : nat) (c : Counter num) :
  running c = false -> run value (repeat Tick n) c = c.
Proof.
  intro H. induction n as [|n IH]; [reflexivity|].
  simpl. rewrite (tick_halted c H). exact IH.
Qed.

Lemma displayed_halted (n : nat) (c : Counter num) :
  running c = false -> displayed value (repeat Tick n) c = [].
Proof.
  intro H. induction n as [|n IH]; [reflexivity|].
  simpl. rewrite H, (tick_halted c H). exact IH.
Qed.

Lemma displayed_app (es1 es2 : list Event) (c : Counter num) :
  displayed value (es1 ++ es2) c =
  displayed value es1 c ++ displayed value es2 (run value es1 c).
Proof.
  revert c. induction es1 as [|e es1 IH]; intro c; [reflexivity|].
  simpl. rewrite IH.
  destruct e; [reflexivity|]. destruct (running c); reflexivity.
Qed.

Lemma run_app (es1 es2 : list Event) (c : Counter num) :
  run value (es1 ++ es2) c = run value es2 (run value es1 c).
Proof. apply fold_left_app. Qed.

Lemma tick_live (s d : num) :
  tick value (live s d) =
  let s' := add s (increment value) in
  if geb s' value then halted s' value else live s' (floor s').
Proof. reflexivity. Qed.

Lemma displayed_tick_live (n : nat) (s d : num) :
  displayed value (repeat Tick (S n)) (live s d) =
  count (tick value (live s d))
  :: displayed value (repeat Tick n) (tick value (live s d)).
Proof. reflexivity. Qed.

Lemma displayed_live (n : nat) (s d : num) :
  displayed value (repeat Tick n) (live s d) = ramp value n s.
Proof.
  revert s d. induction n as [|n IH]; intros s d; [reflexivity|].
  rewrite displayed_tick_live, tick_live. cbn [ramp]. cbv zeta.
  destruct (geb (add s (increment value)) value).
  - rewrite displayed_halted; reflexivity.
  - rewrite IH. reflexivity.
Qed.

Lemma samples_ramp (n : nat) : samples value n = ramp value n (lit 0).
Proof. unfold samples. rewrite triggered_live. apply displayed_live. Qed.

(** Once the interval is cleared, more firings of the host timer add
    nothing. *)
Lemma samples_stop (n m : nat) :
  running (run value (repeat Tick n) triggered) = false ->
  samples value (n + m) = samples value n.
Proof.
  intro H. unfold samples. rewrite repeat_app, displayed_app.
  rewrite (displayed_halted m _ H). apply app_nil_r.
Qed.

Lemma run_stop (n m : nat) :
  running (run value (repeat Tick n) triggered) = false ->
  run value (repeat Tick (n + m)) triggered =
  run value (repeat Tick n) triggered.
Proof.
  intro H. rewrite repeat_app, run_app. apply run_halted. exact H.
Qed.

(** The first sample already reaches the target. *)
Lemma samples_immediate (n : nat) :
  geb (add (lit 0) (increment value)) value = true ->
  samples value (S n) = [value]
  /\ running (run value (repeat Tick (S n)) triggered) = false.
Proof.
  intro H.
  assert (T : tick value triggered
              = halted (add (lit 0) (increment value)) value).
  { rewrite triggered_live, tick_live. cbv zeta. rewrite H. reflexivity. }
  split.
  - rewrite samples_ramp. cbn [ramp]. cbv zeta. rewrite H. reflexivity.
  - change (S n) with (1 + n)%nat.
    rewrite run_stop; change (run value (repeat Tick 1) triggered)
      with (tick value triggered); rewrite T; reflexivity.
Qed.

Lemma accumulate_shift (k : nat) (s : num) :
  accumulate value (S k) s = accumulate value k (add s (increment value)).
Proof.
  unfold accumulate.
  exact (Nat.iter_succ_r k num (fun a => add a (increment value)) s).
Qed.

Lemma spec_accumulator_accumulate (k : nat) :
  spec_accumulator value k = accumulate value k (lit 0).
Proof. reflexivity. Qed.

(** While the accumulator stays below the target, the samples are its
    floors and the interval stays live. *)
Lemma run_below (n : nat) (s d : num) :
  (forall k, (1 <= k <= n)%nat -> geb (accumulate value k s) value = false) ->
  displayed value (repeat Tick n) (live s d) =
    map (fun k => floor (accumulate value k s)) (seq 1 n)
  /\ exists d', run value (repeat Tick n) (live s d) =
                live (accumulate value n s) d'.
Proof.
  revert s d. induction n as [|n IH]; intros s d Hlow.
  - split; [reflexivity|]. exists d. reflexivity.
  - assert (H1 : geb (add s (increment value)) value = false)
      by (apply (Hlow 1%nat); lia).
    destruct (IH (add s (increment value))
                 (floor (add s (increment value)))) as [D [d' R]].
    { intros k Hk. rewrite <- accumulate_shift. apply Hlow. lia. }
    assert (T : tick value (live s d)
                = live (add s (increment value))
                    (floor (add s (increment value)))).
    { rewrite tick_live. cbv zeta. rewrite H1. reflexivity. }
    split.
    + rewrite displayed_tick_live, T, D.
      change (seq 1 (S n)) with (1%nat :: seq 2 n).
      rewrite <- (seq_shift n 1). cbn [map count live]. rewrite map_map.
      apply f_equal2; [reflexivity|].
      apply map_ext. intro k. rewrite accumulate_shift. reflexivity.
    + exists d'.
      change (run value (repeat Tick (S n)) (live s d))
        with (run value (repeat Tick n) (tick value (live s d))).
      rewrite T, R, accumulate_shift. reflexivity.
Qed.

Lemma spec_accumulator_succ (k : nat) :
  spec_accumulator value (S k) = add (spec_accumulator value k) (increment value).
Proof. reflexivity. Qed.

(** The samples while the accumulator of the specification stays below
    the target. *)
Lemma samples_below (n : nat) :
  (forall k, (1 <= k <= n)%nat ->
             geb (spec_accumulator value k) value = false) ->
  samples value n = map (fun k => floor (spec_accumulator value k)) (seq 1 n)
  /\ accumulator value n = Some (spec_accumulator value n)
  /\ running (run value (repeat Tick n) triggered) = true.
Proof.
  intro Hlow. unfold samples, accumulator. rewrite triggered_live.
  destruct (run_below n (lit 0) (lit 0) Hlow) as [D [d' R]].
  rewrite D, R. repeat split; reflexivity.
Qed.

(** The samples once the accumulator of the specification has reached the
    target, at sample [S n]. *)
Lemma samples_clamped (n m : nat) :
  (forall k, (1 <= k <= n)%nat ->
             geb (spec_accumulator value k) value = false) ->
  geb (spec_accumulator value (S n)) value = true ->
  samples value (S n + m) =
    map (fun k => floor (spec_accumulator value k)) (seq 1 n) ++ [value]
  /\ accumulator value (S n + m) = Some (spec_accumulator value (S n))
  /\ count (run value (repeat Tick (S n + m)) triggered) = value
  /\ running (run value (repeat Tick (S n + m)) triggered) = false.
Proof.
  intros Hlow Hreach.
  destruct (run_below n (lit 0) (lit 0) Hlow) as [D [d' R]].
  rewrite spec_accumulator_succ in Hreach.
  assert (T : run value (repeat Tick (S n)) triggered
              = halted (add (spec_accumulator value n) (increment value)) value).
  { replace (S n) with (n + 1)%nat by lia.
    rewrite repeat_app, run_app, triggered_live, R.
    change (run value (repeat Tick 1) (live (accumulate value n (lit 0)) d'))
      with (tick value (live (accumulate value n (lit 0)) d')).
    rewrite tick_live. cbv zeta.
    rewrite <- spec_accumulator_accumulate, Hreach. reflexivity. }
  assert (H : running (run value (repeat Tick (S n)) triggered) = false)
    by (rewrite T; reflexivity).
  unfold accumulator. rewrite (run_stop (S n) m H), T.
  rewrite (samples_stop (S n) m H).
  repeat split; try reflexivity.
  unfold samples. replace (S n) with (n + 1)%nat by lia.
  rewrite repeat_app, displayed_app, triggered_live, D, R.
  f_equal.
  change (repeat Tick 1) with [Tick].
  cbn [displayed handle running live timer cleared negb].
  rewrite tick_live. cbv zeta.
  rewrite <- spec_accumulator_accumulate, Hreach. reflexivity.
Qed.

Lemma below_accumulate (n : nat) (s : num) :
  below value n s = true ->
  forall k, (1 <= k <= n)%nat -> geb (accumulate value k s) value = false.
Proof.
  revert s. induction n as [|n IH]; intros s H k Hk; [lia|].
  cbn [below] in H. cbv zeta in H.
  apply andb_true_iff in H. destruct H as [H1 H2].
  apply negb_true_iff in H1.
  destruct k as [|k]; [lia|]. rewrite accumulate_shift.
  destruct k as [|k]; [exact H1|].
  apply (IH _ H2). lia.
Qed.



Lemma visibility_latched (b : bool) (c : Counter num) :
  isInView c = true -> visibility b c = c.
Proof.
  intro H. unfold visibility, useInView_once. rewrite H. reflexivity.
Qed.

End CounterFacts.

Lemma first_reach {num : Type} {N : JSNumber num} (value : num) (n : nat) :
  geb (lit 0) value = false ->
  (forall k, (1 <= k <= n)%nat ->
             geb (spec_accumulator value k) value = false) ->
  geb (spec_accumulator value (S n)) value = true ->
  stops_exactly_at value (S n).
Proof.
  intros H0 Hlow Hreach.
  assert (Hall : forall k, (k <= n)%nat ->
                           geb (spec_accumulator value k) value = false).
  { intros [|k] Hk; [exact H0 | apply Hlow; lia]. }
  pose proof (samples_clamped value n 0 Hlow Hreach) as C0.
  rewrite Nat.add_0_r in C0. destruct C0 as [S0 [A0 _]].
  unfold stops_exactly_at. split; [|split; [|split; [|split]]].
  - apply Forall_forall. intros k Hk. apply in_seq in Hk.
    exists (spec_accumulator value k). split; [|apply Hall; lia].
    apply (samples_below value k). intros j Hj. apply Hlow. lia.
  - exists (spec_accumulator value (S n)). split; assumption.
  - rewrite S0, length_app, length_map, length_seq. simpl. lia.
  - rewrite S0. apply last_last.
  - intro m. destruct (samples_clamped value n m Hlow Hreach)
      as [Sm [_ [Cm Rm]]].
    rewrite Sm, S0. repeat split; assumption.
Qed.

(** C6 (floor, then clamp).  Under any interpretation of numbers, let the
    accumulator of the specification start at 0 and grow by
    [target / (duration / interval)] per sample.  The accumulator of the
    code starts at 0.  If the accumulator stays below the target for the
    first [n] samples, then these samples are its floors, the accumulator of
    the code after them is that of the specification, and the interval is
    still live.  If moreover the accumulator reaches or exceeds the target
    at sample [n + 1], that sample is the target itself and it is the last
    one: however many more times the host timer fires, the samples are the
    [n] floors followed by the target, the shown value is the target and the
    interval is cleared. *)
Theorem counter_floor_then_clamp
    (num : Type) (N : JSNumber num) (value : num) (n : nat) :
  (forall k, (1 <= k <= n)%nat ->
             geb (spec_accumulator value k) value = false) ->
  accumulator value 0 = Some (lit 0)
  /\ samples value n
     = map (fun k => floor (spec_accumulator value k)) (seq 1 n)
  /\ accumulator value n = Some (spec_accumulator value n)
  /\ running (run value (repeat Tick n) triggered) = true
  /\ (geb (spec_accumulator value (S n)) value = true ->
      forall m,
        samples value (S n + m)
        = map (fun k => floor (spec_accumulator value k)) (seq 1 n)
          ++ [value]
        /\ accumulator value (S n + m) = Some (spec_accumulator value (S n))
        /\ count (run value (repeat Tick (S n + m)) triggered) = value
        /\ running (run value (repeat Tick (S n + m)) triggered) = false).
Proof.
  intro Hlow. split; [reflexivity|].
  destruct (samples_below value n Hlow) as [S1 [A1 R1]].
  repeat split; try assumption.
  - apply (samples_clamped value n m Hlow H).
  - apply (samples_clamped value n m Hlow H).
  - apply (samples_clamped value n m Hlow H).
  - apply (samples_clamped value n m Hlow H).
Qed.

Lemma Exact_ten_below : below 10%Q 124 (lit 0) = true.
Proof. vm_compute. reflexivity. Qed.

Lemma counter_floor_then_clamp_witness :
  accumulator 10%Q 0 = Some (lit 0)
  /\ samples 10%Q 124
     = map (fun k => floor (spec_accumulator 10%Q k)) (seq 1 124)
  /\ accumulator 10%Q 124 = Some (spec_accumulator 10%Q 124)
  /\ running (run 10%Q (repeat Tick 124) triggered) = true
  /\ (geb (spec_accumulator 10%Q 125) 10%Q = true ->
      forall m,
        samples 10%Q (125 + m)
        = map (fun k => floor (spec_accumulator 10%Q k)) (seq 1 124)
          ++ [10%Q]
        /\ accumulator 10%Q (125 + m) = Some (spec_accumulator 10%Q 125)
        /\ count (run 10%Q (repeat Tick (125 + m)) triggered) = 10%Q
        /\ running (run 10%Q (repeat Tick (125 + m)) triggered) = false).
Proof.
  apply (counter_floor_then_clamp Q Exact 10%Q 124).
  intros k Hk. rewrite spec_accumulator_accumulate.
  apply (below_accumulate 10%Q 124 (lit 0) Exact_ten_below). exact Hk.
Defined.


(** * The counter over exact arithmetic *)

Lemma Exact_geb_false (a b : Q) : geb a b = false <-> (a < b)%Q.
Proof.
  simpl. split; intro H.
  - apply Qnot_le_lt. intro L. apply Qle_bool_iff in L. congruence.
  - destruct (Qle_bool b a) eqn:E; [|reflexivity].
    apply Qle_bool_iff in E. destruct (Qlt_not_le _ _ H E).
Qed.

Lemma Exact_geb_true (a b : Q) : geb a b = true <-> (b <= a)%Q.
Proof. apply Qle_bool_iff. Qed.

(** The number of steps is 125 and the increment is the target divided by
    it. *)
Lemma Exact_steps : (div (@duration Q _) (lit 16) == 125)%Q.
Proof. reflexivity. Qed.

Lemma Exact_increment (value : Q) : (increment value == value / 125)%Q.
Proof.
  unfold increment, end_. simpl div. rewrite Exact_steps. reflexivity.
Qed.

Lemma Exact_increment_nonneg (value : Q) :
  (0 <= value)%Q -> (0 <= increment value)%Q.
Proof.
  intro H. rewrite Exact_increment. apply Qle_shift_div_l; [reflexivity|].
  rewrite Qmult_0_l. exact H.
Qed.

(** From a live state whose accumulator does not exceed a non-negative
    target, the samples never decrease (starting from the floor of the
    accumulator) and none exceeds the target. *)
Lemma ramp_monotone (value : Q) (n : nat) (s : Q) :
  (0 <= value)%Q -> (s <= value)%Q ->
  Sorted Qle (inject_Z (Qfloor s) :: ramp value n s)
  /\ Forall (fun d => d <= value)%Q (ramp value n s).
Proof.
  intro Hv. pose proof (Exact_increment_nonneg value Hv) as Hi.
  revert s. induction n as [|n IH]; intros s Hs.
  - split; repeat constructor.
  - cbn [ramp]. cbv zeta.
    assert (Hstep : (s <= s + increment value)%Q).
    { rewrite <- (Qplus_0_r s) at 1. apply Qplus_le_r. exact Hi. }
    destruct (geb (add s (increment value)) value) eqn:E.
    + split.
      * repeat constructor.
        apply Qle_trans with s; [apply Qfloor_le | exact Hs].
      * repeat constructor. apply Qle_refl.
    + apply Exact_geb_false in E.
      change (s + increment value < value)%Q in E.
      destruct (IH (s + increment value)%Q (Qlt_le_weak _ _ E)) as [S1 F1].
      split.
      * constructor; [exact S1|]. constructor.
        change (inject_Z (Qfloor s)
                <= inject_Z (Qfloor (s + increment value)))%Q.
        rewrite <- Zle_Qle. apply Qfloor_resp_le. exact Hstep.
      * constructor; [|exact F1].
        apply Qle_trans with (s + increment value)%Q;
          [apply Qfloor_le | apply Qlt_le_weak; exact E].
Qed.

(** Over exact arithmetic: for every non-negative target and every number of
    firings of the interval, the sequence of shown values (the initial 0,
    then the samples) is non-decreasing and no shown value exceeds the
    target. *)
Lemma Exact_monotone_bounded (value : Q) (n : nat) :
  (0 <= value)%Q ->
  StronglySorted Qle (count mount :: samples value n)
  /\ Forall (fun d => d <= value)%Q (count mount :: samples value n).
Proof.
  intro Hv. rewrite samples_ramp.
  destruct (ramp_monotone value n 0%Q Hv Hv) as [S1 F1].
  split.
  - apply Sorted_StronglySorted; [exact Qle_trans | exact S1].
  - constructor; [exact Hv | exact F1].
Qed.

(** Over exact arithmetic: for every strictly negative target the
    accumulator after the first increment is at or above the target, so
    there is exactly one sample, equal to the target. *)
Lemma Exact_negative_jumps (value : Q) (n : nat) :
  (value < 0)%Q ->
  geb (add (lit 0) (increment value)) value = true
  /\ samples value (S n) = [value]
  /\ running (run value (repeat Tick (S n)) triggered) = false.
Proof.
  intro Hv.
  assert (H : geb (add (lit 0) (increment value)) value = true).
  { apply Exact_geb_true.
    change (value <= 0 + increment value)%Q.
    rewrite Qplus_0_l, Exact_increment.
    apply Qle_shift_div_l; [reflexivity|].
    rewrite <- (Qmult_1_r value) at 2.
    setoid_replace (value * 125)%Q with (value * 1 + value * 124)%Q by ring.
    rewrite <- (Qplus_0_r (value * 1)) at 2.
    apply Qplus_le_r.
    setoid_replace 0%Q with (0 * 124)%Q by ring.
    apply Qmult_le_compat_r; [apply Qlt_le_weak; exact Hv | discriminate]. }
  split; [exact H|]. apply samples_immediate. exact H.
Qed.

(** Over exact arithmetic the accumulator after [k] samples is [k] times
    the 125th part of the target. *)
Lemma Exact_accumulator (value : Q) (k : nat) :
  (spec_accumulator value k == inject_Z (Z.of_nat k) * (value / 125))%Q.
Proof.
  induction k as [|k IH].
  - vm_compute. reflexivity.
  - rewrite spec_accumulator_succ.
    change (spec_accumulator value k + increment value
            == inject_Z (Z.of_nat (S k)) * (value / 125))%Q.
    rewrite IH, Exact_increment, Nat2Z.inj_succ.
    unfold Z.succ. rewrite inject_Z_plus. ring.
Qed.

(** Over exact arithmetic every positive target is reached at sample 125
    exactly, so the counter always comes to its end. *)
Lemma Exact_positive_stops (value : Q) :
  (0 < value)%Q -> stops_exactly_at value 125.
Proof.
  intro Hv. apply first_reach.
  - apply Exact_geb_false. exact Hv.
  - intros k Hk. apply Exact_geb_false. rewrite Exact_accumulator.
    setoid_replace (inject_Z (Z.of_nat k) * (value / 125))%Q
      with (value * (inject_Z (Z.of_nat k) / 125))%Q by field.
    rewrite <- (Qmult_1_r value) at 2.
    apply Qmult_lt_l; [exact Hv|].
    apply Qlt_shift_div_r; [reflexivity|].
    rewrite Qmult_1_l. change 125%Q with (inject_Z 125).
    rewrite <- Zlt_Qlt. lia.
  - apply Exact_geb_true. rewrite Exact_accumulator.
    change (inject_Z (Z.of_nat 125)) with 125%Q.
    setoid_replace (125 * (value / 125))%Q with value by field.
    apply Qle_refl.
Qed.

(** * The counter of the page: target 10 *)

Lemma Binary64_ten_below : below (B64.of_Z 10) 124 (lit 0) = true.
Proof. vm_compute. reflexivity. Qed.

Lemma Binary64_ten_reach :
  geb (spec_accumulator (B64.of_Z 10) 125) (B64.of_Z 10) = true.
Proof. vm_compute. reflexivity. Qed.

(** C2 (counter termination at the call site).  With target 10 the number of
    steps is [2000 / 16 = 125] and the increment is [10 / 125].  Both over
    exact arithmetic and over IEEE-754 doubles, the counter stops exactly at
    sample 125: the accumulator is below 10 after each of the first 124
    samples and at or above 10 after sample 125; 125 firings give 125
    samples, the last one being exactly 10; no further sample is produced
    and the shown value stays 10. *)
Theorem counter_ten_stops_at_125 :
  (div (@duration Q _) (lit 16) == 125)%Q
  /\ Qceiling (2000 / 16) = 125
  /\ (increment 10 == 10 / 125)%Q
  /\ stops_exactly_at 10%Q 125
  /\ stops_exactly_at (B64.of_Z 10) 125.
Proof.
  split; [reflexivity|]. split; [reflexivity|].
  split; [apply Exact_increment|]. split.
  - apply Exact_positive_stops. reflexivity.
  - apply first_reach.
    + reflexivity.
    + intros k Hk. rewrite spec_accumulator_accumulate.
      apply (below_accumulate _ 124 _ Binary64_ten_below). exact Hk.
    + exact Binary64_ten_reach.
Qed.

(** C7 (target 0).  The divisor [duration / 16] is 125, not zero, under both
    interpretations.  With target 0 the first sample already passes the
    test [start >= end]: whatever the number of firings (at least one), the
    samples are the single value 0 and the interval is cleared.  This holds
    over exact arithmetic and over doubles, for both zeros. *)
Theorem counter_zero_single_sample (n : nat) :
  ((div (@duration Q _) (lit 16) == 125)%Q
   /\ ~ (div (@duration Q _) (lit 16) == 0)%Q
   /\ samples 0%Q (S n) = [0%Q]
   /\ running (run 0%Q (repeat Tick (S n)) triggered) = false)
  /\ (div (@duration spec_float _) (lit 16) = B64.of_Z 125
      /\ samples (B64.of_Z 0) (S n) = [B64.of_Z 0]
      /\ running (run (B64.of_Z 0) (repeat Tick (S n)) triggered) = false
      /\ samples (S754_zero true) (S n) = [S754_zero true]
      /\ running (run (S754_zero true) (repeat Tick (S n)) triggered)
         = false).
Proof.
  split; [split; [reflexivity | split; [discriminate|]]|].
  - apply samples_immediate. reflexivity.
  - split; [vm_compute; reflexivity|].
    destruct (samples_immediate (B64.of_Z 0) n) as [S1 R1];
      [vm_compute; reflexivity|].
    destruct (samples_immediate (S754_zero true) n) as [S2 R2];
      [vm_compute; reflexivity|].
    repeat split; assumption.
Qed.

(** * Doubles do not always stop at sample 125 *)

(** With target 9 the accumulator after 125 samples is still below 9 and a
    126th sample is needed. *)
Lemma Binary64_nine_needs_126 :
  List.length (samples (B64.of_Z 9) 200) = 126%nat.
Proof. vm_compute. reflexivity. Qed.

(** * IEEE-754 doubles: rounding, comparison, addition, floor, division

    Facts about the Standard Library's executable specification of doubles,
    read through the magnitude of a double as an integer multiple of
    [2^-1074]. *)

Module B64Facts.

Abbreviation fexp := (SpecFloat.fexp B64.prec B64.emax).
Abbreviation bra := (binary_round_aux B64.prec B64.emax).

Lemma fexp_eq (z : Z) : fexp z = Z.max (z - 53) (-1074).
Proof. reflexivity. Qed.

Lemma digits2_size (p : positive) : digits2_pos p = Pos.size p.
Proof. induction p; simpl; congruence. Qed.

Lemma Zdigits2_log2 (m : Z) : 0 < m -> Zdigits2 m = Z.log2 m + 1.
Proof.
  destruct m as [|p|p]; try lia. intros _. simpl.
  rewrite digits2_size. destruct p; simpl; lia.
Qed.

Lemma Zdigits2_0 : Zdigits2 0 = 0.
Proof. reflexivity. Qed.

Lemma Zdigits2_nonneg (m : Z) : 0 <= Zdigits2 m.
Proof. destruct m; simpl; lia. Qed.

Lemma Zdigits2_pos (m : Z) : 0 < m -> 0 < Zdigits2 m.
Proof. destruct m; simpl; lia. Qed.

Lemma Zdigits2_bounds (m : Z) :
  0 < m -> 2 ^ (Zdigits2 m - 1) <= m < 2 ^ Zdigits2 m.
Proof.
  intro H. rewrite (Zdigits2_log2 m H).
  replace (Z.log2 m + 1 - 1) with (Z.log2 m) by lia.
  apply (Z.log2_spec m H).
Qed.

Lemma Zdigits2_le (a b : Z) : 0 <= a <= b -> Zdigits2 a <= Zdigits2 b.
Proof.
  intros [Ha Hab]. destruct (Z.eq_dec a 0) as [->|Hn].
  - apply Zdigits2_nonneg.
  - rewrite !Zdigits2_log2 by lia.
    pose proof (Z.log2_le_mono a b Hab). lia.
Qed.

Lemma Zdigits2_ge_pow (m k : Z) : 0 <= k -> 2 ^ k <= m -> k + 1 <= Zdigits2 m.
Proof.
  intros Hk H. assert (0 < m) by (pose proof (Z.pow_pos_nonneg 2 k); lia).
  rewrite Zdigits2_log2 by assumption.
  apply (Z.log2_le_pow2 m k) in H; lia.
Qed.

Lemma Zdigits2_lt_pow (m k : Z) : 0 <= m -> m < 2 ^ k -> Zdigits2 m <= k.
Proof.
  intros Hm H. destruct (Z.eq_dec m 0) as [->|Hn].
  - simpl. destruct (Z.le_gt_cases 0 k) as [|Hk]; [assumption|].
    rewrite Z.pow_neg_r in H by lia. lia.
  - rewrite Zdigits2_log2 by lia.
    apply (Z.log2_lt_pow2 m k) in H; lia.
Qed.

Lemma Zdigits2_div_pow (m n : Z) :
  0 < m -> 0 <= n -> 0 < m / 2 ^ n -> Zdigits2 (m / 2 ^ n) = Zdigits2 m - n.
Proof.
  intros Hm Hn Hq. rewrite !Zdigits2_log2 by assumption.
  rewrite <- Z.shiftr_div_pow2 by assumption.
  rewrite Z.log2_shiftr by assumption.
  rewrite <- Z.shiftr_div_pow2 in Hq by assumption.
  assert (n <= Z.log2 m).
  { destruct (Z.le_gt_cases n (Z.log2 m)) as [|G]; [assumption|].
    rewrite Z.shiftr_eq_0 in Hq by lia. lia. }
  lia.
Qed.

Lemma div_pow_small (m n : Z) :
  0 <= m -> 0 <= n -> Zdigits2 m <= n -> m / 2 ^ n = 0.
Proof.
  intros Hm Hn H. apply Z.div_small. split; [assumption|].
  destruct (Z.eq_dec m 0) as [->|Hz].
  - apply Z.pow_pos_nonneg; lia.
  - pose proof (Zdigits2_bounds m ltac:(lia)) as [_ B].
    apply Z.lt_le_trans with (1 := B). apply Z.pow_le_mono_r; lia.
Qed.

(** shifting right *)

Lemma shr_1_m (mrs : shr_record) :
  0 <= shr_m mrs -> shr_m (shr_1 mrs) = shr_m mrs / 2.
Proof.
  destruct mrs as [m r s]. simpl. intro H.
  destruct m as [|p|p]; try lia.
  - reflexivity.
  - destruct p; simpl.
    + rewrite Pos2Z.inj_xI. apply Z.div_unique with 1; lia.
    + rewrite Pos2Z.inj_xO. apply Z.div_unique with 0; lia.
    + reflexivity.
Qed.

Lemma div_pow_pow (x a b : Z) :
  0 <= a -> 0 <= b -> x / 2 ^ a / 2 ^ b = x / 2 ^ (a + b).
Proof.
  intros Ha Hb. rewrite Z.pow_add_r by assumption.
  pose proof (Z.pow_pos_nonneg 2 a). pose proof (Z.pow_pos_nonneg 2 b).
  apply Z.div_div; lia.
Qed.

Lemma shr_iter_m (p : positive) (mrs : shr_record) :
  0 <= shr_m mrs ->
  shr_m (iter_pos shr_1 p mrs) = shr_m mrs / 2 ^ Zpos p.
Proof.
  revert mrs. induction p as [p IH|p IH|]; intros mrs H.
  - simpl iter_pos.
    assert (H1 : 0 <= shr_m (shr_1 mrs))
      by (rewrite shr_1_m by assumption; apply Z.div_pos; lia).
    assert (H2 : 0 <= shr_m (iter_pos shr_1 p (shr_1 mrs)))
      by (rewrite IH by assumption; apply Z.div_pos;
          [assumption | apply Z.pow_pos_nonneg; lia]).
    rewrite IH, IH, shr_1_m by assumption.
    change (shr_m mrs / 2) with (shr_m mrs / 2 ^ 1).
    rewrite !div_pow_pow by lia.
    f_equal. f_equal. lia.
  - simpl iter_pos.
    assert (H2 : 0 <= shr_m (iter_pos shr_1 p mrs))
      by (rewrite IH by assumption; apply Z.div_pos;
          [assumption | apply Z.pow_pos_nonneg; lia]).
    rewrite IH, IH by assumption.
    rewrite !div_pow_pow by lia.
    f_equal. f_equal. lia.
  - simpl. rewrite shr_1_m by assumption. reflexivity.
Qed.

Lemma shr_record_of_loc_m (m : Z) (l : location) :
  shr_m (shr_record_of_loc m l) = m.
Proof. destruct l as [|[]]; reflexivity. Qed.

Lemma loc_of_shr_record_of_loc (m : Z) (l : location) :
  loc_of_shr_record (shr_record_of_loc m l) = l.
Proof. destruct l as [|[]]; reflexivity. Qed.

Lemma round_nearest_even_range (m : Z) (l : location) :
  m <= round_nearest_even m l <= m + 1.
Proof.
  destruct l as [|[]]; simpl; try lia. destruct (Z.even m); lia.
Qed.

(** [shr_fexp] in terms of division *)
Lemma shr_fexp_spec (m e : Z) (l : location) :
  0 <= m ->
  let n := fexp (Zdigits2 m + e) - e in
  shr_m (fst (shr_fexp B64.prec B64.emax m e l))
  = (if 0 <? n then m / 2 ^ n else m)
  /\ snd (shr_fexp B64.prec B64.emax m e l) = (if 0 <? n then e + n else e)
  /\ (n <= 0 -> fst (shr_fexp B64.prec B64.emax m e l)
                = shr_record_of_loc m l).
Proof.
  intros Hm n. unfold shr_fexp. fold n. unfold shr.
  destruct n as [|p|p] eqn:E; simpl; rewrite ?shr_record_of_loc_m;
    repeat split; try reflexivity; try lia.
  rewrite shr_iter_m by (rewrite shr_record_of_loc_m; assumption).
  rewrite shr_record_of_loc_m. reflexivity.
Qed.

Lemma pow2_pos (k : Z) : 0 <= k -> 0 < 2 ^ k.
Proof. intro H. apply Z.pow_pos_nonneg; lia. Qed.

Lemma bra_spec (sx : bool) (mx ex : Z) (lx : location) :
  0 <= mx ->
  let n1 := fexp (Zdigits2 mx + ex) - ex in
  let m1 := if 0 <? n1 then mx / 2 ^ n1 else mx in
  let e1 := if 0 <? n1 then ex + n1 else ex in
  exists m2,
    m1 <= m2 <= m1 + 1
    /\ (n1 <= 0 -> lx = loc_Exact -> m2 = m1)
    /\ let n2 := fexp (Zdigits2 m2 + e1) - e1 in
       bra sx mx ex lx
       = B64_pack sx (if 0 <? n2 then m2 / 2 ^ n2 else m2)
           (if 0 <? n2 then e1 + n2 else e1).
Proof.
  intros Hm n1 m1 e1.
  destruct (shr_fexp_spec mx ex lx Hm) as [S1 [S2 S3]].
  fold n1 in S1, S2, S3. fold m1 in S1. fold e1 in S2.
  unfold binary_round_aux.
  destruct (shr_fexp B64.prec B64.emax mx ex lx) as [mrs' e'] eqn:E1.
  simpl in S1, S2, S3. subst e'.
  set (m2 := round_nearest_even (shr_m mrs') (loc_of_shr_record mrs')).
  assert (R : m1 <= m2 <= m1 + 1).
  { unfold m2. rewrite <- S1. apply round_nearest_even_range. }
  assert (Hm1 : 0 <= m1).
  { unfold m1. destruct (0 <? n1) eqn:L; [|assumption].
    apply Z.ltb_lt in L.
    apply Z.div_pos; [assumption | apply pow2_pos; lia]. }
  exists m2. split; [exact R|]. split.
  - intros Hn Hl. unfold m2. rewrite (S3 Hn), Hl. simpl.
    unfold m1. destruct (0 <? n1) eqn:L; [|reflexivity].
    apply Z.ltb_lt in L. unfold n1 in *. lia.
  - set (n2 := fexp (Zdigits2 m2 + e1) - e1).
    destruct (shr_fexp_spec m2 e1 loc_Exact ltac:(lia)) as [T1 [T2 _]].
    fold n2 in T1, T2.
    destruct (shr_fexp B64.prec B64.emax m2 e1 loc_Exact) as [mrs'' e''].
    simpl in T1, T2. rewrite T1, T2. reflexivity.
Qed.

Lemma step1_canonical (mx ex : Z) :
  0 <= mx -> -1074 <= ex -> ex <= fexp (Zdigits2 mx + ex) ->
  let e1 := fexp (Zdigits2 mx + ex) in
  let m1 := mx / 2 ^ (e1 - ex) in
  0 <= m1
  /\ (0 < m1 -> Zdigits2 m1 + e1 = Zdigits2 mx + ex)
  /\ (m1 = 0 -> e1 = -1074).
Proof.
  intros Hm He Hn e1 m1.
  assert (P : 0 < 2 ^ (e1 - ex)) by (apply pow2_pos; unfold e1; lia).
  split; [apply Z.div_pos; assumption|]. split.
  - intro H1.
    assert (0 < mx).
    { destruct (Z.eq_dec mx 0) as [->|]; [|lia].
      unfold m1 in H1. rewrite Zdiv_0_l in H1. lia. }
    unfold m1. rewrite Zdigits2_div_pow; try assumption; unfold e1; lia.
  - intro H0.
    assert (D : Zdigits2 mx <= e1 - ex).
    { destruct (Z.le_gt_cases (Zdigits2 mx) (e1 - ex)) as [|G]; [assumption|].
      exfalso.
      assert (0 < mx).
      { destruct mx; simpl in G; unfold e1 in *; lia. }
      pose proof (Zdigits2_bounds mx H) as [B _].
      assert (2 ^ (e1 - ex) <= mx).
      { apply Z.le_trans with (2 := B). apply Z.pow_le_mono_r; lia. }
      assert (1 <= m1).
      { unfold m1. apply Z.div_le_lower_bound; lia. }
      lia. }
    unfold e1 in *. rewrite fexp_eq in *. lia.
Qed.

Lemma step2_canonical (m1 m2 e1 : Z) :
  0 <= m1 -> m1 <= m2 <= m1 + 1 ->
  (0 < m1 -> fexp (Zdigits2 m1 + e1) = e1) ->
  (m1 = 0 -> e1 = -1074) ->
  let n2 := fexp (Zdigits2 m2 + e1) - e1 in
  let m3 := if 0 <? n2 then m2 / 2 ^ n2 else m2 in
  let e3 := if 0 <? n2 then e1 + n2 else e1 in
  (m2 = 0 /\ m3 = 0)
  \/ (0 < m3
      /\ fexp (Zdigits2 m3 + e3) = e3
      /\ m3 * 2 ^ (e3 + 1074) = m2 * 2 ^ (e1 + 1074)
      /\ e1 <= e3 /\ e3 = fexp (Zdigits2 m2 + e1)).
Proof.
  intros H1 R C1 C0 n2 m3 e3.
  destruct (Z.eq_dec m2 0) as [Z2|N2].
  - left. split; [assumption|]. unfold m3. rewrite Z2.
    destruct (0 <? n2); [apply Zdiv_0_l|reflexivity].
  - right.
    assert (P2 : 0 < m2) by lia.
    destruct (Z.eq_dec m1 0) as [Z1|N1].
    + (* m1 = 0, m2 = 1 *)
      assert (m2 = 1) by lia. pose proof (C0 Z1). subst m2 e1 m1.
      unfold m3, e3, n2.
      repeat split; vm_compute; try reflexivity; discriminate.
    + assert (P1 : 0 < m1) by lia. specialize (C1 P1).
      pose proof (Zdigits2_bounds m1 P1) as [B1 B2].
      pose proof (Zdigits2_pos m1 P1) as D1.
      pose proof (Zdigits2_le m1 m2 ltac:(lia)) as L12.
      destruct (Z.eq_dec (Zdigits2 m2) (Zdigits2 m1)) as [E|NE].
      * (* same number of digits: no second shift *)
        assert (N : n2 = 0) by (unfold n2; rewrite E; lia).
        unfold m3, e3. rewrite N. change (0 <? 0) with false. cbv iota.
        repeat split; try lia; try (unfold n2 in N; lia);
          rewrite fexp_eq in *; lia.
      * (* the mantissa has grown to the next power of two *)
        assert (M2 : m2 = 2 ^ Zdigits2 m1).
        { destruct (Z.lt_ge_cases m2 (2 ^ Zdigits2 m1)) as [L|G]; [|lia].
          pose proof (Zdigits2_lt_pow m2 (Zdigits2 m1) ltac:(lia) L). lia. }
        assert (D2 : Zdigits2 m2 = Zdigits2 m1 + 1).
        { apply Z.le_antisymm.
          - apply Zdigits2_lt_pow; [lia|]. rewrite M2.
            apply Z.pow_lt_mono_r; lia.
          - apply Zdigits2_ge_pow; lia. }
        assert (N : n2 = 0 \/ n2 = 1)
          by (unfold n2; rewrite D2; rewrite fexp_eq in *; lia).
        destruct N as [N|N]; unfold m3, e3; rewrite N;
          [change (0 <? 0) with false | change (0 <? 1) with true];
          cbv iota.
        -- repeat split; try lia; try (unfold n2 in N; lia);
             unfold n2 in N; rewrite D2 in *; rewrite fexp_eq in *; lia.
        -- assert (Q : m2 / 2 = 2 ^ (Zdigits2 m1 - 1)).
           { rewrite M2.
             replace (Zdigits2 m1) with (1 + (Zdigits2 m1 - 1)) at 1 by lia.
             rewrite Z.pow_add_r by lia.
             change (2 ^ 1) with 2. rewrite Z.mul_comm, Z.div_mul; lia. }
           change (2 ^ 1) with 2. rewrite Q.
           assert (D3 : Zdigits2 (2 ^ (Zdigits2 m1 - 1)) = Zdigits2 m1).
           { apply Z.le_antisymm.
             - apply Zdigits2_lt_pow; [apply Z.pow_nonneg; lia|].
               apply Z.pow_lt_mono_r; lia.
             - pose proof (Zdigits2_ge_pow (2 ^ (Zdigits2 m1 - 1))
                             (Zdigits2 m1 - 1) ltac:(lia) ltac:(lia)). lia. }
           repeat split.
           ++ apply pow2_pos. lia.
           ++ rewrite D3. unfold n2 in N. rewrite D2 in N.
              rewrite fexp_eq in *. lia.
           ++ rewrite M2.
              assert (-1074 <= e1) by (rewrite fexp_eq in C1; lia).
              rewrite <- !Z.pow_add_r by lia. f_equal. lia.
           ++ lia.
           ++ unfold n2 in N. lia.
Qed.

Lemma div_pow_0 (m : Z) : m / 2 ^ 0 = m.
Proof. change (2 ^ 0) with 1. apply Z.div_1_r. Qed.

(** The result of rounding a non-negative mantissa that carries at least as
    many digits as the format keeps. *)
Lemma bra_result (sx : bool) (mx ex : Z) (lx : location) :
  0 <= mx -> -1074 <= ex -> ex <= fexp (Zdigits2 mx + ex) ->
  let e1 := fexp (Zdigits2 mx + ex) in
  let m1 := mx / 2 ^ (e1 - ex) in
  exists m2,
    m1 <= m2 <= m1 + 1
    /\ (e1 = ex -> lx = loc_Exact -> m2 = m1)
    /\ ((bra sx mx ex lx = S754_infinity sx
         /\ 971 < fexp (Zdigits2 m2 + e1))
        \/ (bra sx mx ex lx = S754_zero sx /\ m2 = 0)
        \/ (exists p e,
              bra sx mx ex lx = S754_finite sx p e
              /\ bounded B64.prec B64.emax p e = true
              /\ Zpos p * 2 ^ (e + 1074) = m2 * 2 ^ (e1 + 1074)
              /\ e1 <= e)).
Proof.
  intros Hm He Hn e1 m1.
  destruct (bra_spec sx mx ex lx Hm) as [m2 [R [X B]]].
  destruct (step1_canonical mx ex Hm He Hn) as [P1 [C1 C0]].
  fold e1 in C1, C0. fold m1 in P1, C1, C0.
  assert (M1 : (if 0 <? e1 - ex then mx / 2 ^ (e1 - ex) else mx) = m1).
  { destruct (0 <? e1 - ex) eqn:L; [reflexivity|].
    apply Z.ltb_ge in L. unfold m1.
    replace (e1 - ex) with 0 by (unfold e1 in *; lia).
    symmetry. apply div_pow_0. }
  assert (E1 : (if 0 <? e1 - ex then ex + (e1 - ex) else ex) = e1).
  { destruct (0 <? e1 - ex) eqn:L; [lia|].
    apply Z.ltb_ge in L. unfold e1 in *. lia. }
  fold e1 in R, X, B. rewrite M1, E1 in *. clear M1 E1.
  exists m2. split; [exact R|]. split.
  { intros Q L. apply X; [lia | exact L]. }
  assert (C1' : 0 < m1 -> fexp (Zdigits2 m1 + e1) = e1).
  { intro H. rewrite (C1 H). reflexivity. }
  destruct (step2_canonical m1 m2 e1 P1 R C1' C0)
    as [[Z2 Z3] | [P3 [K3 [V3 [L3 U3]]]]]; rewrite B.
  - right. left. rewrite Z3. split; [reflexivity | exact Z2].
  - set (m3 := if 0 <? fexp (Zdigits2 m2 + e1) - e1
               then m2 / 2 ^ (fexp (Zdigits2 m2 + e1) - e1) else m2) in *.
    set (e3 := if 0 <? fexp (Zdigits2 m2 + e1) - e1
               then e1 + (fexp (Zdigits2 m2 + e1) - e1) else e1) in *.
    destruct m3 as [|p|p] eqn:E3; try lia.
    unfold B64_pack. destruct (e3 <=? 971) eqn:L.
    + right. right. exists p, e3. split; [reflexivity|].
      split; [|split; [exact V3 | exact L3]].
      unfold bounded, canonical_mantissa.
      apply andb_true_iff. split; [apply Z.eqb_eq; exact K3 | exact L].
    + left. split; [reflexivity|]. apply Z.leb_gt in L.
      rewrite <- U3. exact L.
Qed.

(** ** Well-formed mantissas and comparison *)

Lemma bounded_facts (p : positive) (e : Z) :
  bounded B64.prec B64.emax p e = true ->
  fexp (Zdigits2 (Zpos p) + e) = e
  /\ -1074 <= e <= 971
  /\ Zdigits2 (Zpos p) <= 53
  /\ (-1074 < e -> Zdigits2 (Zpos p) = 53).
Proof.
  unfold bounded, canonical_mantissa. intro H.
  apply andb_true_iff in H. destruct H as [C L].
  apply Z.eqb_eq in C. apply Z.leb_le in L.
  change (Zpos (digits2_pos p)) with (Zdigits2 (Zpos p)) in C.
  change (B64.emax - B64.prec) with 971 in L.
  split; [exact C|]. rewrite fexp_eq in C. lia.
Qed.

Lemma magnitude_pos (s : bool) (p : positive) (e : Z) :
  -1074 <= e -> 0 < B64_magnitude (S754_finite s p e).
Proof.
  intro H. unfold B64_magnitude.
  apply Z.mul_pos_pos; [lia | apply pow2_pos; lia].
Qed.

Lemma magnitude_bounds (s : bool) (p : positive) (e : Z) :
  bounded B64.prec B64.emax p e = true ->
  2 ^ (Zdigits2 (Zpos p) - 1 + (e + 1074))
  <= B64_magnitude (S754_finite s p e)
  < 2 ^ (Zdigits2 (Zpos p) + (e + 1074)).
Proof.
  intro H. destruct (bounded_facts p e H) as [_ [E _]].
  pose proof (Zdigits2_bounds (Zpos p) ltac:(lia)) as [B1 B2].
  pose proof (Zdigits2_pos (Zpos p) ltac:(lia)).
  pose proof (pow2_pos (e + 1074) ltac:(lia)).
  unfold B64_magnitude.
  rewrite (Z.pow_add_r 2 (Zdigits2 (Zpos p) - 1) (e + 1074)) by lia.
  rewrite (Z.pow_add_r 2 (Zdigits2 (Zpos p)) (e + 1074)) by lia.
  split.
  - apply Z.mul_le_mono_nonneg_r; lia.
  - apply Z.mul_lt_mono_pos_r; lia.
Qed.

Lemma magnitude_finite (s : bool) (p : positive) (e : Z) :
  bounded B64.prec B64.emax p e = true ->
  B64_magnitude (S754_finite s p e) < B64_infinite.
Proof.
  intro H. destruct (bounded_facts p e H) as [_ [E [D _]]].
  destruct (magnitude_bounds s p e H) as [_ B].
  apply Z.lt_le_trans with (1 := B). unfold B64_infinite.
  apply Z.pow_le_mono_r; lia.
Qed.

Lemma compare_pos (m1 m2 : positive) (e1 e2 : Z) :
  bounded B64.prec B64.emax m1 e1 = true ->
  bounded B64.prec B64.emax m2 e2 = true ->
  SFcompare (S754_finite false m1 e1) (S754_finite false m2 e2)
  = Some (B64_magnitude (S754_finite false m1 e1)
          ?= B64_magnitude (S754_finite false m2 e2)).
Proof.
  intros H1 H2.
  destruct (bounded_facts m1 e1 H1) as [_ [E1 [D1 N1]]].
  destruct (bounded_facts m2 e2 H2) as [_ [E2 [D2 N2]]].
  pose proof (magnitude_bounds false m1 e1 H1) as [L1 U1].
  pose proof (magnitude_bounds false m2 e2 H2) as [L2 U2].
  unfold SFcompare. f_equal.
  destruct (e1 ?= e2) eqn:C.
  - apply Z.compare_eq in C. subst e2. unfold B64_magnitude.
    rewrite Pos.compare_cont_spec. unfold Pos.switch_Eq.
    change (m1 ?= m2)%positive with (Zpos m1 ?= Zpos m2).
    pose proof (pow2_pos (e1 + 1074) ltac:(lia)).
    rewrite <- (Zmult_compare_compat_r (Zpos m1) (Zpos m2)
                  (2 ^ (e1 + 1074)) ltac:(lia)).
    destruct (Zpos m1 ?= Zpos m2); reflexivity.
  - rewrite Z.compare_lt_iff in C. symmetry. apply Z.compare_lt_iff.
    rewrite (N2 ltac:(lia)) in L2.
    apply Z.lt_le_trans with (1 := U1).
    apply Z.le_trans with (2 := L2). apply Z.pow_le_mono_r; lia.
  - rewrite Z.compare_gt_iff in C. symmetry. apply Z.compare_gt_iff.
    rewrite (N1 ltac:(lia)) in L1.
    apply Z.lt_le_trans with (1 := U2).
    apply Z.le_trans with (2 := L1). apply Z.pow_le_mono_r; lia.
Qed.

Lemma compare_neg (m1 m2 : positive) (e1 e2 : Z) :
  SFcompare (S754_finite true m1 e1) (S754_finite true m2 e2)
  = SFcompare (S754_finite false m2 e2) (S754_finite false m1 e1).
Proof.
  unfold SFcompare. f_equal. rewrite (Z.compare_antisym e1 e2).
  destruct (e1 ?= e2); simpl; try reflexivity.
  rewrite !Pos.compare_cont_spec. simpl.
  rewrite (Pos.compare_antisym m1 m2).
  destruct (m1 ?= m2)%positive; reflexivity.
Qed.

Lemma infinite_pos : 0 < B64_infinite.
Proof. reflexivity. Qed.

(** On non-negative doubles the comparison is that of the magnitudes. *)
Lemma leb_magnitude (x y : spec_float) :
  B64_nonneg x -> B64_nonneg y ->
  SFleb x y = (B64_magnitude x <=? B64_magnitude y).
Proof.
  intros Hx Hy. pose proof infinite_pos as I.
  destruct x as [sx|[]| |[] mx ex]; try contradiction;
    destruct y as [sy|[]| |[] my ey]; try contradiction;
    simpl in Hx, Hy;
    try (pose proof (magnitude_finite false mx ex Hx));
    try (pose proof (magnitude_finite false my ey Hy));
    try (pose proof (magnitude_pos false mx ex
                       (proj1 (proj1 (proj2 (bounded_facts mx ex Hx))))));
    try (pose proof (magnitude_pos false my ey
                       (proj1 (proj1 (proj2 (bounded_facts my ey Hy))))));
    try (unfold SFleb; rewrite compare_pos by assumption;
         unfold Z.leb; destruct (_ ?= _); reflexivity);
    unfold SFleb; cbn [SFcompare B64_magnitude] in *; symmetry;
    first [apply Z.leb_le; lia | apply Z.leb_gt; lia].
Qed.

(** ** Alignment *)

Lemma iter_xO (p d : positive) :
  Zpos (Pos.iter xO p d) = Zpos p * 2 ^ Zpos d.
Proof.
  induction d as [|d IH] using Pos.peano_ind.
  - simpl. lia.
  - rewrite Pos.iter_succ, Pos2Z.inj_xO, IH, Pos2Z.inj_succ.
    rewrite Z.pow_succ_r by lia. lia.
Qed.

Lemma shl_align_spec (m : positive) (e e' : Z) :
  e' <= e ->
  Zpos (fst (shl_align m e e')) = Zpos m * 2 ^ (e - e')
  /\ snd (shl_align m e e') = e'.
Proof.
  intro H. unfold shl_align.
  destruct (e' - e) as [|d|d] eqn:E; cbn [fst snd].
  - replace (e - e') with 0 by lia. change (2 ^ 0) with 1. split; lia.
  - exfalso. lia.
  - rewrite iter_xO. replace (e - e') with (Zpos d) by lia.
    split; reflexivity.
Qed.

Lemma shl_align_id (m : positive) (e e' : Z) :
  e <= e' -> shl_align m e e' = (m, e).
Proof.
  intro H. unfold shl_align.
  destruct (e' - e) eqn:E; try reflexivity. exfalso. lia.
Qed.

Lemma Zdigits2_mul_pow (m k : Z) :
  0 < m -> 0 <= k -> Zdigits2 (m * 2 ^ k) = Zdigits2 m + k.
Proof.
  intros Hm Hk.
  assert (0 < m * 2 ^ k) by (apply Z.mul_pos_pos; [lia | apply pow2_pos; lia]).
  rewrite !Zdigits2_log2 by assumption.
  rewrite Z.log2_mul_pow2 by lia. lia.
Qed.

(** A well-formed mantissa (or one aligned to be so) is left as it is by
    the rounding that follows an exact operation. *)
Lemma bra_exact (s : bool) (p : positive) (e : Z) :
  bounded B64.prec B64.emax p e = true ->
  bra s (Zpos p) e loc_Exact = S754_finite s p e.
Proof.
  intro H. destruct (bounded_facts p e H) as [C [E [D _]]].
  assert (A1 : 0 <= Zpos p) by lia.
  assert (A2 : -1074 <= e) by lia.
  assert (A3 : e <= fexp (Zdigits2 (Zpos p) + e)) by lia.
  destruct (bra_result s (Zpos p) e loc_Exact A1 A2 A3) as [m2 [R [X B]]].
  clear A3. rewrite C in *.
  assert (M : m2 = Zpos p).
  { rewrite X by reflexivity. rewrite Z.sub_diag. apply div_pow_0. }
  destruct B as [[_ O] | [[_ Z] | [q [e' [B [V [G L]]]]]]].
  - rewrite M, C in O. lia.
  - lia.
  - destruct (bounded_facts q e' V) as [C' [E' [D' N']]].
    rewrite B. rewrite M in G.
    destruct (Z.eq_dec e' e) as [->|NE].
    + f_equal. apply Z.mul_cancel_r in G; [lia|].
      pose proof (pow2_pos (e + 1074) ltac:(lia)). lia.
    + exfalso. assert (LT : e < e') by lia.
      pose proof (magnitude_bounds s q e' V) as [Lq _].
      pose proof (magnitude_bounds s p e H) as [_ Up].
      unfold B64_magnitude in Lq, Up. rewrite (N' ltac:(lia)) in Lq.
      assert (2 ^ (Zdigits2 (Zpos p) + (e + 1074))
              <= 2 ^ (53 - 1 + (e' + 1074)))
        by (apply Z.pow_le_mono_r; lia).
      lia.
Qed.

(** ** Addition of non-negative doubles never goes below its first
    operand *)

Lemma fexp_mono (a b : Z) : a <= b -> fexp a <= fexp b.
Proof. intro H. rewrite !fexp_eq. lia. Qed.

Lemma add_finite (mx my : positive) (ex ey : Z) :
  bounded B64.prec B64.emax mx ex = true ->
  bounded B64.prec B64.emax my ey = true ->
  B64_nonneg (SFadd B64.prec B64.emax (S754_finite false mx ex)
                (S754_finite false my ey))
  /\ B64_magnitude (S754_finite false mx ex)
     <= B64_magnitude (SFadd B64.prec B64.emax (S754_finite false mx ex)
                         (S754_finite false my ey)).
Proof.
  intros Hx Hy.
  destruct (bounded_facts mx ex Hx) as [Cx [Ex [Dx Nx]]].
  destruct (bounded_facts my ey Hy) as [Cy [Ey [Dy Ny]]].
  unfold SFadd. set (ez := Z.min ex ey).
  destruct (shl_align_spec mx ex ez ltac:(unfold ez; lia)) as [Ax _].
  destruct (shl_align_spec my ey ez ltac:(unfold ez; lia)) as [Ay _].
  set (a := fst (shl_align mx ex ez)) in *.
  set (b := fst (shl_align my ey ez)) in *.
  change (cond_Zopp false (Zpos a) + cond_Zopp false (Zpos b))
    with (Zpos (a + b)).
  unfold binary_normalize, binary_round.
  change (Zpos (digits2_pos (a + b))) with (Zdigits2 (Zpos (a + b))).
  assert (Px : 0 < 2 ^ (ex - ez)) by (apply pow2_pos; unfold ez; lia).
  assert (Py : 0 < 2 ^ (ey - ez)) by (apply pow2_pos; unfold ez; lia).
  assert (Mge : Zpos mx * 2 ^ (ex - ez) <= Zpos (a + b))
    by (rewrite Pos2Z.inj_add, Ax; lia).
  assert (DM : Zdigits2 (Zpos mx) + (ex - ez) <= Zdigits2 (Zpos (a + b))).
  { rewrite <- Zdigits2_mul_pow by (unfold ez; lia).
    apply Zdigits2_le. split; [|exact Mge].
    apply Z.mul_nonneg_nonneg; lia. }
  assert (Hn : ez <= fexp (Zdigits2 (Zpos (a + b)) + ez)).
  { apply Z.le_trans with ex; [unfold ez; lia|].
    rewrite <- Cx at 1. apply fexp_mono. lia. }
  rewrite (shl_align_id _ _ _ Hn).
  assert (A1 : 0 <= Zpos (a + b)) by lia.
  assert (A2 : -1074 <= ez) by (unfold ez; lia).
  destruct (bra_result false (Zpos (a + b)) ez loc_Exact A1 A2 Hn)
    as [m2 [R [_ B]]].
  set (e1 := fexp (Zdigits2 (Zpos (a + b)) + ez)) in *.
  set (m1 := Zpos (a + b) / 2 ^ (e1 - ez)) in *.
  assert (P1 : 0 < 2 ^ (e1 - ez)) by (apply pow2_pos; lia).
  assert (Pe : 0 < 2 ^ (e1 + 1074)) by (apply pow2_pos; lia).
  assert (Key : B64_magnitude (S754_finite false mx ex)
                <= m1 * 2 ^ (e1 + 1074)).
  { unfold B64_magnitude.
    destruct (Z.le_gt_cases e1 ex) as [L|G].
    - assert (Q : Zpos mx * 2 ^ (ex - e1) <= m1).
      { unfold m1. apply Z.div_le_lower_bound; [exact P1|].
        apply Z.le_trans with (2 := Mge).
        replace (ex - ez) with ((e1 - ez) + (ex - e1)) by lia.
        rewrite Z.pow_add_r by lia. lia. }
      replace (ex + 1074) with ((ex - e1) + (e1 + 1074)) by lia.
      rewrite Z.pow_add_r by lia.
      rewrite Z.mul_assoc. apply Z.mul_le_mono_nonneg_r; lia.
    - assert (E1 : e1 - ez = Zdigits2 (Zpos (a + b)) - 53)
        by (unfold e1 in *; rewrite fexp_eq in *; lia).
      pose proof (Zdigits2_bounds (Zpos (a + b)) ltac:(lia)) as [BL _].
      assert (Q : 2 ^ 52 <= m1).
      { unfold m1. apply Z.div_le_lower_bound; [exact P1|].
        apply Z.le_trans with (2 := BL).
        rewrite <- Z.pow_add_r by lia. rewrite E1.
        apply Z.pow_le_mono_r; lia. }
      pose proof (magnitude_bounds false mx ex Hx) as [_ U].
      unfold B64_magnitude in U.
      apply Z.lt_le_incl. apply Z.lt_le_trans with (1 := U).
      apply Z.le_trans with (2 ^ 52 * 2 ^ (e1 + 1074)).
      + rewrite <- Z.pow_add_r by lia. apply Z.pow_le_mono_r; lia.
      + apply Z.mul_le_mono_nonneg_r; lia. }
  pose proof (magnitude_finite false mx ex Hx) as F.
  pose proof (magnitude_pos false mx ex ltac:(lia)) as P.
  destruct B as [[B _] | [[B Z] | [q [e' [B [V [G L]]]]]]]; rewrite B.
  - split; [exact I|]. unfold B64_magnitude at 2. lia.
  - exfalso. assert (m1 * 2 ^ (e1 + 1074) <= 0); [|lia].
    apply Z.mul_nonpos_nonneg; lia.
  - split; [exact V|].
    change (B64_magnitude (S754_finite false q e'))
      with (Zpos q * 2 ^ (e' + 1074)).
    rewrite G. apply Z.le_trans with (1 := Key).
    apply Z.mul_le_mono_nonneg_r; lia.
Qed.

Lemma add_nonneg (x y : spec_float) :
  B64_nonneg x -> B64_nonneg y ->
  B64_nonneg (SFadd B64.prec B64.emax x y)
  /\ B64_magnitude x <= B64_magnitude (SFadd B64.prec B64.emax x y).
Proof.
  intros Hx Hy. pose proof infinite_pos as I.
  destruct x as [sx|[]| |[] mx ex]; try contradiction;
    destruct y as [sy|[]| |[] my ey]; try contradiction;
    try (apply add_finite; assumption);
    simpl in Hx, Hy;
    try (pose proof (magnitude_finite false mx ex Hx));
    try (pose proof (magnitude_finite false my ey Hy));
    try (pose proof (magnitude_pos false mx ex
                       (proj1 (proj1 (proj2 (bounded_facts mx ex Hx))))));
    try (pose proof (magnitude_pos false my ey
                       (proj1 (proj1 (proj2 (bounded_facts my ey Hy))))));
    try (destruct sx, sy); cbn [SFadd B64_nonneg B64_magnitude] in *;
    split; first [exact Logic.I | assumption | lia].
Qed.

(** ** [Math.floor] on non-negative doubles *)

Lemma bounded_intro (p : positive) (e : Z) :
  fexp (Zdigits2 (Zpos p) + e) = e -> e <= 971 ->
  bounded B64.prec B64.emax p e = true.
Proof.
  intros C L. unfold bounded, canonical_mantissa.
  apply andb_true_iff. split; [apply Z.eqb_eq; exact C | apply Z.leb_le; exact L].
Qed.

(** An integer below [2^53] is represented exactly. *)
Lemma binary_round_integer (q : positive) :
  Zdigits2 (Zpos q) <= 53 ->
  exists p e,
    binary_round B64.prec B64.emax false q 0 = S754_finite false p e
    /\ bounded B64.prec B64.emax p e = true
    /\ Zpos p * 2 ^ (e + 1074) = Zpos q * 2 ^ 1074.
Proof.
  intro D. pose proof (Zdigits2_pos (Zpos q) ltac:(lia)) as D0.
  unfold binary_round.
  change (Zpos (digits2_pos q)) with (Zdigits2 (Zpos q)).
  rewrite Z.add_0_r.
  assert (F : fexp (Zdigits2 (Zpos q)) = Zdigits2 (Zpos q) - 53)
    by (rewrite fexp_eq; lia).
  rewrite F.
  destruct (shl_align_spec q 0 (Zdigits2 (Zpos q) - 53) ltac:(lia))
    as [A1 A2].
  destruct (shl_align q 0 (Zdigits2 (Zpos q) - 53)) as [mz ez].
  cbn [fst snd] in A1, A2. subst ez.
  assert (Dz : Zdigits2 (Zpos mz) = 53).
  { rewrite A1, Zdigits2_mul_pow by lia. lia. }
  assert (B : bounded B64.prec B64.emax mz (Zdigits2 (Zpos q) - 53) = true).
  { apply bounded_intro; [|lia]. rewrite Dz, fexp_eq. lia. }
  exists mz, (Zdigits2 (Zpos q) - 53).
  split; [apply bra_exact; exact B|]. split; [exact B|].
  rewrite A1, <- Z.mul_assoc, <- Z.pow_add_r by lia.
  f_equal. f_equal. lia.
Qed.

Lemma floor_nonneg (x : spec_float) :
  B64_nonneg x ->
  B64_nonneg (B64.floor x)
  /\ B64_magnitude (B64.floor x)
     = B64_magnitude x / 2 ^ 1074 * 2 ^ 1074.
Proof.
  intro Hx. pose proof (pow2_pos 1074 ltac:(lia)) as P.
  destruct x as [sx|[]| |[] m e]; try contradiction.
  - split; [exact I|]. reflexivity.
  - split; [exact I|]. vm_compute. reflexivity.
  - simpl in Hx. destruct (bounded_facts m e Hx) as [C [E [D N]]].
    unfold B64.floor. destruct (0 <=? e) eqn:L.
    + apply Z.leb_le in L. split; [exact Hx|].
      unfold B64_magnitude. rewrite Z.pow_add_r by lia.
      rewrite Z.mul_assoc, Z.div_mul by lia. reflexivity.
    + apply Z.leb_gt in L.
      change (cond_Zopp false (Zpos m)) with (Zpos m).
      rewrite Z.shiftr_div_pow2 by lia.
      assert (Q : B64_magnitude (S754_finite false m e) / 2 ^ 1074
                  = Zpos m / 2 ^ (- e)).
      { unfold B64_magnitude.
        replace 1074 with ((- e) + (e + 1074)) at 2 by lia.
        rewrite (Z.pow_add_r 2 (- e) (e + 1074)) by lia.
        apply Z.div_mul_cancel_r;
          pose proof (pow2_pos (- e) ltac:(lia));
          pose proof (pow2_pos (e + 1074) ltac:(lia)); lia. }
      rewrite Q.
      assert (Q0 : 0 <= Zpos m / 2 ^ (- e))
        by (apply Z.div_pos; [lia | apply pow2_pos; lia]).
      destruct (Zpos m / 2 ^ (- e)) as [|q|q] eqn:Eq; try lia.
      * split; [exact I|]. reflexivity.
      * unfold binary_normalize.
        assert (Dq : Zdigits2 (Zpos q) <= 53).
        { apply Z.le_trans with (2 := D). apply Zdigits2_le.
          split; [lia|]. rewrite <- Eq.
          apply Z.div_le_upper_bound; [apply pow2_pos; lia|].
          pose proof (pow2_pos (- e) ltac:(lia)). nia. }
        destruct (binary_round_integer q Dq) as [p [e' [B [V G]]]].
        rewrite B. split; [exact V|]. exact G.
Qed.

(** ** Division by the number of steps *)

Lemma div_fst (a b : Z) : fst (Z.div_eucl a b) = a / b.
Proof. unfold Z.div. destruct (Z.div_eucl a b); reflexivity. Qed.

Lemma div_steps (s : bool) (m : positive) (e : Z) :
  bounded B64.prec B64.emax m e = true ->
  (SFdiv B64.prec B64.emax (S754_finite s m e) B64_steps = S754_zero s
   \/ exists p e',
        SFdiv B64.prec B64.emax (S754_finite s m e) B64_steps
        = S754_finite s p e'
        /\ bounded B64.prec B64.emax p e' = true)
  /\ B64_magnitude (SFdiv B64.prec B64.emax (S754_finite s m e) B64_steps)
     <= B64_magnitude (S754_finite s m e).
Proof.
  intro H. destruct (bounded_facts m e H) as [C [E [D N]]].
  pose proof (Zdigits2_pos (Zpos m) ltac:(lia)) as D0.
  pose proof (Zdigits2_bounds (Zpos m) ltac:(lia)) as [BL BU].
  unfold SFdiv, B64_steps, SFdiv_core_binary.
  rewrite xorb_false_r.
  change (Zdigits2 (Zpos 8796093022208000)) with 53.
  set (c := Zpos 8796093022208000).
  set (d1 := Zdigits2 (Zpos m)) in *.
  set (E0 := fexp (d1 + e - (53 + -46))).
  assert (HE : E0 = Z.max (d1 + e - 60) (-1074))
    by (unfold E0; rewrite fexp_eq; lia).
  replace (Z.min E0 (e - -46)) with E0 by lia.
  set (sh := e - -46 - E0).
  assert (Hs : 0 < sh) by (unfold sh; lia).
  destruct sh as [|shp|shp] eqn:Es; try lia.
  rewrite <- Es in *. clear shp Es.
  rewrite Z.shiftl_mul_pow2 by lia.
  set (m' := Zpos m * 2 ^ sh).
  pose proof (div_fst m' c) as Q.
  destruct (Z.div_eucl m' c) as [q r]. cbn [fst] in Q. subst q.
  set (q := m' / c).
  assert (Pc : 0 < c) by reflexivity.
  assert (C52 : 2 ^ 52 <= c) by (unfold c, Z.le; vm_compute; discriminate).
  assert (C53 : c < 2 ^ 53) by reflexivity.
  assert (Psh : 0 < 2 ^ sh) by (apply pow2_pos; lia).
  assert (Pm' : 0 < m') by (unfold m'; apply Z.mul_pos_pos; lia).
  assert (Hq0 : 0 <= q) by (apply Z.div_pos; lia).
  assert (Hqc : q * c <= m')
    by (unfold q; rewrite Z.mul_comm; apply Z.mul_div_le; exact Pc).
  (* enough digits in the quotient *)
  assert (Hn : E0 <= fexp (Zdigits2 q + E0)).
  { destruct (Z.eq_dec E0 (-1074)) as [->|NE]; [rewrite fexp_eq; lia|].
    assert (S1 : sh = 106 - d1) by (unfold sh; lia).
    assert (Q52 : 2 ^ 52 <= q).
    { unfold q. apply Z.div_le_lower_bound; [exact Pc|].
      apply Z.le_trans with (2 ^ 53 * 2 ^ 52); [nia|].
      rewrite <- Z.pow_add_r by lia. unfold m'.
      apply Z.le_trans with (2 ^ (d1 - 1) * 2 ^ sh).
      - rewrite <- Z.pow_add_r by lia. apply Z.pow_le_mono_r; lia.
      - apply Z.mul_le_mono_nonneg_r; lia. }
    pose proof (Zdigits2_ge_pow q 52 ltac:(lia) Q52).
    rewrite fexp_eq. lia. }
  assert (A2 : -1074 <= E0) by lia.
  destruct (bra_result s q E0 (new_location c r) Hq0 A2 Hn)
    as [m2 [R [_ B]]].
  set (e1 := fexp (Zdigits2 q + E0)) in *.
  set (m1 := q / 2 ^ (e1 - E0)) in *.
  (* the quotient has few digits *)
  assert (Um' : m' < 2 ^ (d1 + sh)).
  { unfold m'. rewrite Z.pow_add_r by lia.
    apply Z.mul_lt_mono_pos_r; lia. }
  assert (He1 : e1 <= Z.max (e - 6) (-1074)).
  { destruct (Z.le_gt_cases 52 (d1 + sh)) as [G|G].
    - assert (q < 2 ^ (d1 + sh - 52)).
      { assert (q * 2 ^ 52 < 2 ^ (d1 + sh - 52) * 2 ^ 52); [|nia].
        rewrite <- Z.pow_add_r by lia.
        replace (d1 + sh - 52 + 52) with (d1 + sh) by lia.
        apply Z.le_lt_trans with m'; [nia | exact Um']. }
      pose proof (Zdigits2_lt_pow q (d1 + sh - 52) Hq0 ltac:(assumption)).
      unfold e1. rewrite fexp_eq. unfold sh in *. lia.
    - assert (q = 0).
      { unfold q. apply Z.div_small. split; [lia|].
        apply Z.lt_le_trans with (2 := C52).
        apply Z.lt_le_trans with (1 := Um').
        apply Z.pow_le_mono_r; lia. }
      unfold e1. replace q with 0. change (Zdigits2 0) with 0.
      rewrite fexp_eq. unfold sh in *. lia. }
  assert (P1 : 0 < 2 ^ (e1 - E0)) by (apply pow2_pos; lia).
  assert (PE : 0 < 2 ^ (E0 + 1074)) by (apply pow2_pos; lia).
  assert (Pe1 : 0 < 2 ^ (e1 + 1074)) by (apply pow2_pos; lia).
  assert (Pe : 0 < 2 ^ (e + 1074)) by (apply pow2_pos; lia).
  assert (Hm1 : 0 <= m1) by (unfold m1; apply Z.div_pos; lia).
  set (X := Zpos m * 2 ^ (e + 1074)).
  set (T := q * 2 ^ (E0 + 1074)).
  assert (HT : 125 * T <= X).
  { assert (G : (q * c) * 2 ^ (E0 + 1074) <= m' * 2 ^ (E0 + 1074))
      by (apply Z.mul_le_mono_nonneg_r; lia).
    assert (M' : m' * 2 ^ (E0 + 1074) = X * 2 ^ 46).
    { unfold m', X. rewrite <- !Z.mul_assoc, <- !Z.pow_add_r by lia.
      f_equal. f_equal. unfold sh. lia. }
    assert (Cc : c = 125 * 2 ^ 46) by reflexivity.
    rewrite M', Cc in G. unfold T.
    pose proof (pow2_pos 46 ltac:(lia)). nia. }
  assert (H1 : m1 * 2 ^ (e1 + 1074) <= T).
  { unfold T. replace (e1 + 1074) with ((e1 - E0) + (E0 + 1074)) by lia.
    rewrite Z.pow_add_r, Z.mul_assoc by lia.
    apply Z.mul_le_mono_nonneg_r; [lia|].
    unfold m1. rewrite Z.mul_comm. apply Z.mul_div_le. exact P1. }
  assert (Key : m2 * 2 ^ (e1 + 1074) <= X).
  { apply Z.le_trans with ((m1 + 1) * 2 ^ (e1 + 1074));
      [apply Z.mul_le_mono_nonneg_r; lia|].
    destruct (Z.eq_dec e (-1074)) as [Ee|Ne].
    - assert (E0 = -1074) by lia. assert (e1 = -1074) by lia.
      assert (U : 2 ^ (e1 + 1074) = 1) by (replace e1 with (-1074); reflexivity).
      assert (U' : 2 ^ (E0 + 1074) = 1)
        by (replace E0 with (-1074); reflexivity).
      assert (U'' : 2 ^ (e + 1074) = 1) by (rewrite Ee; reflexivity).
      unfold X, T in *. rewrite U in *. rewrite U' in *. rewrite U''. lia.
    - assert (2 * 2 ^ (e1 + 1074) <= 2 ^ (e + 1074)).
      { change 2 with (2 ^ 1) at 1. rewrite <- Z.pow_add_r by lia.
        apply Z.pow_le_mono_r; lia. }
      assert (2 ^ (e + 1074) <= X) by (unfold X; nia).
      lia. }
  change (B64_magnitude (S754_finite s m e)) with X.
  destruct B as [[B O] | [[B Z] | [p [e' [B [V [G L]]]]]]]; rewrite B.
  - exfalso.
    assert (P2 : 0 < m2).
    { destruct (Z.eq_dec m2 0) as [->|]; [|lia].
      change (Zdigits2 0) with 0 in O. rewrite fexp_eq in O. lia. }
    pose proof (Zdigits2_bounds m2 P2) as [L2 _].
    pose proof (Zdigits2_pos m2 P2).
    assert (2 ^ (Zdigits2 m2 - 1 + (e1 + 1074)) <= X).
    { rewrite (Z.pow_add_r 2 (Zdigits2 m2 - 1) (e1 + 1074)) by lia.
      apply Z.le_trans with (2 := Key).
      apply Z.mul_le_mono_nonneg_r; lia. }
    assert (X < 2 ^ (d1 + (e + 1074))).
    { unfold X. rewrite (Z.pow_add_r 2 d1 (e + 1074)) by lia.
      apply Z.mul_lt_mono_pos_r; lia. }
    assert (Zdigits2 m2 - 1 + (e1 + 1074) < d1 + (e + 1074)).
    { apply (Z.pow_lt_mono_r_iff 2); lia. }
    rewrite fexp_eq in O. lia.
  - split; [left; reflexivity|]. unfold B64_magnitude at 1. unfold X. nia.
  - split; [right; exists p, e'; split; [reflexivity | exact V]|].
    change (B64_magnitude (S754_finite s p e'))
      with (Zpos p * 2 ^ (e' + 1074)).
    rewrite G. exact Key.
Qed.

(** ** Comparison read both ways, and adding a zero *)

Lemma compare_antisym (a b : spec_float) :
  SFcompare b a = option_map CompOpp (SFcompare a b).
Proof.
  destruct a as [sa|sa| |sa ma ea], b as [sb|sb| |sb mb eb];
    try (destruct sa); try (destruct sb); try reflexivity;
    simpl; f_equal; rewrite (Z.compare_antisym ea eb);
    destruct (ea ?= eb); simpl; try reflexivity;
    rewrite !Pos.compare_cont_spec; simpl;
    rewrite (Pos.compare_antisym ma mb);
    destruct (ma ?= mb)%positive; reflexivity.
Qed.

Lemma compare_add_zero (p x : spec_float) :
  SFcompare p (SFadd B64.prec B64.emax x (S754_zero false)) = SFcompare p x.
Proof.
  destruct x as [sx|sx| |sx mx ex]; try reflexivity.
  destruct sx; simpl; destruct p as [sp|sp| |sp mp ep]; reflexivity.
Qed.

(** An element of height zero passes the range test for no probe. *)
Lemma hit_zero_height (top : Z) (probe : spec_float) :
  hit (mkElement top 0) probe = false.
Proof.
  unfold hit. cbn [offsetTop offsetHeight geb ltb add lit Binary64].
  change (B64.of_Z 0) with (S754_zero false).
  unfold SFltb, SFleb. rewrite compare_add_zero.
  rewrite (compare_antisym (B64.of_Z top) probe).
  destruct (SFcompare (B64.of_Z top) probe) as [[]|]; reflexivity.
Qed.

End B64Facts.

(** * The counter on doubles *)

Lemma Binary64_steps : div (@duration spec_float _) (lit 16) = B64_steps.
Proof. reflexivity. Qed.

Lemma Binary64_increment (value : spec_float) :
  increment value = SFdiv B64.prec B64.emax value B64_steps.
Proof. reflexivity. Qed.

Lemma magnitude_nonneg (x : spec_float) :
  B64_nonneg x -> 0 <= B64_magnitude x.
Proof.
  destruct x as [sx|[]| |[] m e]; try contradiction; intro H; simpl in H.
  - apply Z.le_refl.
  - apply Z.lt_le_incl. exact B64Facts.infinite_pos.
  - apply Z.lt_le_incl. apply B64Facts.magnitude_pos.
    apply (B64Facts.bounded_facts m e H).
Qed.

(** A well-formed double that is not below zero is a zero, a positive
    double or plus infinity. *)
Lemma nonneg_of_geb (value : spec_float) :
  valid_binary B64.prec B64.emax value = true ->
  geb value (lit 0) = true ->
  B64_nonneg value.
Proof.
  intros V G. destruct value as [s|[]| |[] m e]; simpl in *;
    try discriminate; try exact I. exact V.
Qed.

Lemma Binary64_increment_nonneg (value : spec_float) :
  B64_nonneg value -> B64_nonneg (increment value).
Proof.
  intro H. rewrite Binary64_increment.
  destruct value as [s|[]| |[] m e]; try contradiction; try exact I.
  simpl in H.
  destruct (B64Facts.div_steps false m e H) as [[Z | [p [e' [F B]]]] _].
  - rewrite Z. exact I.
  - rewrite F. exact B.
Qed.

Lemma floor_le (a b : Z) :
  a <= b -> a / 2 ^ 1074 * 2 ^ 1074 <= b / 2 ^ 1074 * 2 ^ 1074.
Proof.
  intro H. pose proof (B64Facts.pow2_pos 1074 ltac:(lia)) as P.
  apply Z.mul_le_mono_nonneg_r; [lia|].
  apply Z.div_le_mono; lia.
Qed.

Lemma floor_below (a : Z) : a / 2 ^ 1074 * 2 ^ 1074 <= a.
Proof.
  pose proof (B64Facts.pow2_pos 1074 ltac:(lia)) as P.
  rewrite Z.mul_comm. apply Z.mul_div_le. exact P.
Qed.

(** From a live interval whose accumulator is a non-negative double with
    floor at most the target, the samples are non-negative doubles between
    that floor and the target, each at most every later one. *)
Lemma ramp_Binary64 (value : spec_float) (n : nat) (s : spec_float) :
  B64_nonneg value -> B64_nonneg s ->
  B64_magnitude (floor s) <= B64_magnitude value ->
  Forall B64_nonneg (ramp value n s)
  /\ Forall (fun d => B64_magnitude (floor s) <= B64_magnitude d
                     /\ B64_magnitude d <= B64_magnitude value)
       (ramp value n s)
  /\ StronglySorted (fun a b => B64_magnitude a <= B64_magnitude b)
       (ramp value n s).
Proof.
  intro Hv. pose proof (Binary64_increment_nonneg value Hv) as Hi.
  revert s. induction n as [|n IH]; intros s Hs Hf.
  - repeat split; constructor.
  - cbn [ramp]. cbv zeta.
    destruct (B64Facts.add_nonneg s (increment value) Hs Hi) as [Hs' Hle].
    change (SFadd B64.prec B64.emax s (increment value))
      with (add s (increment value)) in Hs', Hle.
    set (s' := add s (increment value)) in *.
    change (geb s' value) with (SFleb value s').
    rewrite (B64Facts.leb_magnitude value s' Hv Hs').
    destruct (B64_magnitude value <=? B64_magnitude s') eqn:T.
    + repeat split; repeat constructor; try assumption. apply Z.le_refl.
    + apply Z.leb_gt in T.
      destruct (B64Facts.floor_nonneg s Hs) as [_ Fs].
      destruct (B64Facts.floor_nonneg s' Hs') as [Nf' Fs'].
      change (B64.floor s) with (floor s) in Fs.
      change (B64.floor s') with (floor s') in Nf', Fs'.
      assert (B1 : B64_magnitude (floor s) <= B64_magnitude (floor s'))
        by (rewrite Fs, Fs'; apply floor_le; exact Hle).
      assert (B2 : B64_magnitude (floor s') <= B64_magnitude value).
      { rewrite Fs'. pose proof (floor_below (B64_magnitude s')). lia. }
      destruct (IH s' Hs' B2) as [F1 [F2 S]].
      split; [constructor; assumption|]. split.
      * constructor; [split; assumption|].
        apply (Forall_impl _ (P := fun d =>
                 B64_magnitude (floor s') <= B64_magnitude d
                 /\ B64_magnitude d <= B64_magnitude value)); [|exact F2].
        intros d [D1 D2]. split; [lia | exact D2].
      * constructor; [exact S|].
        apply (Forall_impl _ (P := fun d =>
                 B64_magnitude (floor s') <= B64_magnitude d
                 /\ B64_magnitude d <= B64_magnitude value)); [|exact F2].
        intros d [D1 _]. exact D1.
Qed.

Lemma sorted_by_magnitude (l : list spec_float) :
  Forall B64_nonneg l ->
  StronglySorted (fun a b => B64_magnitude a <= B64_magnitude b) l ->
  StronglySorted (fun a b => SFleb a b = true) l.
Proof.
  intros F S. induction S as [|a l S IH H]; [constructor|].
  inversion F as [|? ? Na Nl]; subst.
  constructor; [apply IH; exact Nl|].
  rewrite Forall_forall in *. intros b Hb.
  rewrite (B64Facts.leb_magnitude a b Na (Nl b Hb)).
  apply Z.leb_le. apply H. exact Hb.
Qed.

(** C3 (counter monotonicity).  On the doubles the page computes with: for
    every well-formed target that is not below zero (a zero, a positive
    double or plus infinity) and every number of firings of the interval,
    the sequence of shown values (the initial 0, then the samples) is
    non-decreasing, each value being at most every later one, and no shown
    value exceeds the target.  The accumulator itself may pass the target
    (it is 10.000000000000007 at the last sample for target 10); the shown
    value does not, because of the clamp. *)
Theorem counter_monotone_bounded (value : spec_float) (n : nat) :
  valid_binary B64.prec B64.emax value = true ->
  geb value (lit 0) = true ->
  StronglySorted (fun a b => geb b a = true) (count mount :: samples value n)
  /\ Forall (fun d => geb value d = true) (count mount :: samples value n).
Proof.
  intros V G. pose proof (nonneg_of_geb value V G) as Hv.
  rewrite samples_ramp.
  assert (H0 : B64_nonneg (lit 0)) by exact I.
  assert (Hf : B64_magnitude (floor (lit 0)) <= B64_magnitude value)
    by (apply (magnitude_nonneg value Hv)).
  destruct (ramp_Binary64 value n (lit 0) Hv H0 Hf) as [F1 [F2 S]].
  change (count mount) with (S754_zero false).
  assert (FN : Forall B64_nonneg (S754_zero false :: ramp value n (lit 0)))
    by (constructor; [exact I | exact F1]).
  split.
  - apply (sorted_by_magnitude _ FN). constructor; [exact S|].
    apply (Forall_impl _ (P := fun d =>
             B64_magnitude (floor (lit 0)) <= B64_magnitude d
             /\ B64_magnitude d <= B64_magnitude value)); [|exact F2].
    intros d [D1 _]. exact D1.
  - rewrite Forall_forall in *. intros d Hd.
    change (geb value d) with (SFleb d value).
    rewrite (B64Facts.leb_magnitude d value (FN d Hd) Hv).
    apply Z.leb_le. destruct Hd as [<- | Hd].
    + exact Hf.
    + apply (F2 d Hd).
Qed.

Lemma counter_monotone_bounded_witness :
  StronglySorted (fun a b => geb b a = true)
    (count mount :: samples (B64.of_Z 10) 130)
  /\ Forall (fun d => geb (B64.of_Z 10) d = true)
       (count mount :: samples (B64.of_Z 10) 130).
Proof.
  apply (counter_monotone_bounded (B64.of_Z 10) 130); reflexivity.
Defined.

(** C10 (negative targets).  On the doubles the page computes with: for
    every well-formed target below zero (a negative double or minus
    infinity) the accumulator after the first increment, [0 + target / 125]
    as rounded, is at or above the target, so whatever the number of firings
    delivered by the host (at least one) there is exactly one sample, equal
    to the target, and the interval is cleared: there is no ramp down from
    0. *)
Theorem counter_negative_jumps (value : spec_float) (n : nat) :
  valid_binary B64.prec B64.emax value = true ->
  ltb value (lit 0) = true ->
  geb (add (lit 0) (increment value)) value = true
  /\ samples value (S n) = [value]
  /\ running (run value (repeat Tick (S n)) triggered) = false.
Proof.
  intros V L.
  assert (H : geb (add (lit 0) (increment value)) value = true).
  { rewrite Binary64_increment.
    destruct value as [s|[]| |[] m e]; simpl in L; try discriminate.
    - reflexivity.
    - simpl in V.
      destruct (B64Facts.div_steps true m e V) as [[Z | [p [e' [F B]]]] M].
      + rewrite Z. reflexivity.
      + rewrite F in *.
        change (geb (add (lit 0) (S754_finite true p e'))
                  (S754_finite true m e))
          with (SFleb (S754_finite true m e) (S754_finite true p e')).
        unfold SFleb. rewrite B64Facts.compare_neg.
        rewrite (B64Facts.compare_pos p m e' e B V).
        change (B64_magnitude (S754_finite true p e'))
          with (B64_magnitude (S754_finite false p e')) in M.
        change (B64_magnitude (S754_finite true m e))
          with (B64_magnitude (S754_finite false m e)) in M.
        destruct (_ ?= _) eqn:C; try reflexivity.
        apply Z.compare_gt_iff in C. lia. }
  split; [exact H|]. apply samples_immediate. exact H.
Qed.

Lemma counter_negative_jumps_witness :
  geb (add (lit 0) (increment (B64.of_Z (-7)))) (B64.of_Z (-7)) = true
  /\ samples (B64.of_Z (-7)) 3 = [B64.of_Z (-7)]
  /\ running (run (B64.of_Z (-7)) (repeat Tick 3) triggered) = false.
Proof.
  apply (counter_negative_jumps (B64.of_Z (-7)) 2); reflexivity.
Defined.

(** * Further properties of the tracker *)

Section TrackerMore.

Context {num : Type} {N : JSNumber num}.

Lemma handleScroll_find (doc : Document) (y : num) (active : string) :
  handleScroll doc y active =
  match find (hits doc (add y (lit 100))) sections with
  | Some s => s
  | None => active
  end.
Proof. apply scan_find. Qed.

Lemma handleScroll_no_match (ev : Document * num) (active : string) :
  ~ matches ev -> handleScroll (fst ev) (snd ev) active = active.
Proof.
  intro H. rewrite handleScroll_find.
  destruct (find _ _) as [s|] eqn:F; [|reflexivity].
  apply find_some in F. destruct H. exists s. exact F.
Qed.

Lemma handleScroll_match (ev : Document * num) (a b : string) :
  matches ev ->
  handleScroll (fst ev) (snd ev) a = handleScroll (fst ev) (snd ev) b.
Proof.
  intros [s [Hin Hs]]. rewrite !handleScroll_find.
  destruct (find _ _) as [t|] eqn:F; [reflexivity|].
  rewrite (find_none _ _ F s Hin) in Hs. discriminate.
Qed.

Lemma session_app (events later : list (Document * num)) :
  session (events ++ later) =
  fold_left (fun active ev => handleScroll (fst ev) (snd ev) active)
    later (session events).
Proof. unfold session. apply fold_left_app. Qed.

Lemma fold_no_match (later : list (Document * num)) (active : string) :
  Forall (fun ev => ~ matches ev) later ->
  fold_left (fun active ev => handleScroll (fst ev) (snd ev) active)
    later active = active.
Proof.
  intro H. revert active.
  induction H as [|ev later Hev _ IH]; intro active; [reflexivity|].
  simpl. rewrite (handleScroll_no_match ev active Hev). apply IH.
Qed.

(** X1.  Handling the same scroll sample twice is the same as handling it
    once: events repeated at one offset and layout do not move the state. *)
Theorem handleScroll_idempotent (doc : Document) (y : num)
    (active : string) :
  handleScroll doc y (handleScroll doc y active) = handleScroll doc y active.
Proof.
  rewrite !handleScroll_find.
  destruct (find _ _) as [s|]; reflexivity.
Qed.

(** X2.  The state after a session is decided by the last scroll sample
    that made some section pass the test: what came before it does not
    matter, and the samples after it, matching nothing, leave its result in
    place. *)
Theorem session_last_match
    (events later : list (Document * num)) (ev : Document * num) :
  matches ev ->
  Forall (fun e => ~ matches e) later ->
  session (events ++ ev :: later)
  = handleScroll (fst ev) (snd ev) initialSection.
Proof.
  intros Hev Hlater.
  rewrite session_app. simpl.
  rewrite (fold_no_match later _ Hlater).
  apply handleScroll_match. exact Hev.
Qed.

(** X3.  A session in which no scroll sample makes a section pass the test
    ends in the initial state, "home": the highlight never moves. *)
Theorem session_never_matched (events : list (Document * num)) :
  Forall (fun e => ~ matches e) events ->
  session events = initialSection.
Proof. intro H. apply (fold_no_match events initialSection H). Qed.

End TrackerMore.

Lemma sample_layout_footer_unmatched :
  ~ matches (sample_layout, 3200%Q).
Proof.
  intros [s [Hin Hs]]. simpl in Hin.
  destruct Hin as [<- | [<- | [<- | [<- | []]]]];
    vm_compute in Hs; discriminate.
Qed.

Lemma sample_layout_about_matched : matches (sample_layout, 650%Q).
Proof. exists "about"%string. split; [simpl; tauto | reflexivity]. Qed.

Lemma session_last_match_witness :
  session ([(sample_layout, 2000%Q)] ++ (sample_layout, 650%Q)
           :: [(sample_layout, 3200%Q); (sample_layout, 3300%Q)])
  = handleScroll sample_layout 650%Q initialSection.
Proof.
  apply (session_last_match [(sample_layout, 2000%Q)]
           [(sample_layout, 3200%Q); (sample_layout, 3300%Q)]
           (sample_layout, 650%Q)).
  - exact sample_layout_about_matched.
  - repeat constructor.
    + exact sample_layout_footer_unmatched.
    + intros [s [Hin Hs]]. simpl in Hin.
      destruct Hin as [<- | [<- | [<- | [<- | []]]]];
        vm_compute in Hs; discriminate.
Defined.

Lemma session_never_matched_witness :
  session [(sample_layout, 3200%Q); (sample_layout, 3200%Q)]
  = initialSection.
Proof.
  apply (session_never_matched
           [(sample_layout, 3200%Q); (sample_layout, 3200%Q)]).
  repeat constructor; exact sample_layout_footer_unmatched.
Defined.

(** X4.  The handler never activates a section that does not pass the
    range test: under any interpretation of numbers, when the state changes
    the new section is one of the known ids, it is laid out and the probe
    passes its test.  Under doubles an element of height zero passes the
    test for no probe, so a section that has collapsed to height zero is
    never newly selected. *)
Theorem handleScroll_sound :
  (forall (num : Type) (N : JSNumber num)
          (doc : Document) (scrollY : num) (previous : string),
      handleScroll doc scrollY previous = previous
      \/ (In (handleScroll doc scrollY previous) sections
          /\ passes doc (add scrollY (lit 100))
               (handleScroll doc scrollY previous)))
  /\ (forall (doc : Document) (scrollY : spec_float) (previous : string)
             (element : Element),
        doc (handleScroll doc scrollY previous) = Some element ->
        offsetHeight element = 0 ->
        handleScroll doc scrollY previous = previous).
Proof.
  split.
  - intros num N doc scrollY previous.
    unfold handleScroll. rewrite scan_find.
    destruct (find _ _) as [s|] eqn:F; [right|left; reflexivity].
    apply find_some in F. destruct F as [Hin Hs].
    split; [exact Hin | apply hits_passes; exact Hs].
  - intros doc scrollY previous element.
    unfold handleScroll. rewrite scan_find.
    destruct (find _ _) as [s|] eqn:F; [|reflexivity].
    intros E H0. apply find_some in F. destruct F as [_ Hs].
    unfold hits in Hs. rewrite E in Hs.
    destruct element as [top height]. simpl in H0. subst height.
    rewrite B64Facts.hit_zero_height in Hs. discriminate.
Qed.

(** * The navigation bar *)

Lemma session_known {num : Type} {N : JSNumber num}
    (events : list (Document * num)) :
  In (session events) sections.
Proof.
  induction events as [|ev events IH] using rev_ind.
  - left; reflexivity.
  - rewrite session_snoc.
    destruct (handleScroll_cases (fst ev) (snd ev) (session events)) as [E|H].
    + rewrite E. exact IH.
    + exact H.
Qed.

(** X6.  After any sequence of scroll samples exactly one entry of the
    navigation bar carries the underline; it is the entry whose link points
    to the active section, and it is also the only one in the active
    colour. *)
Theorem nav_one_underline (num : Type) (N : JSNumber num)
    (events : list (Document * num)) :
  exists link,
    filter underline (renderNav (session events)) = [link]
    /\ filter highlighted (renderNav (session events)) = [link]
    /\ href link = ("#" ++ session events)%string.
Proof.
  destruct (session_known events) as [E | [E | [E | [E | []]]]];
    rewrite <- E; eexists; repeat split; reflexivity.
Qed.

(** * The hero heading *)

Lemma split_cons (sep : ascii) (s : string) :
  exists w ws, split sep s = w :: ws.
Proof.
  destruct s as [|c s]; simpl; [eauto|].
  destruct (Ascii.eqb c sep); [eauto|].
  destruct (split sep s); eauto.
Qed.

Lemma join_cons (sep a b : string) (l : list string) :
  join sep (a :: b :: l) = (a ++ sep ++ join sep (b :: l))%string.
Proof. reflexivity. Qed.

(** Joining the pieces of a split with the separator gives the string
    back. *)
Lemma join_split (sep : ascii) (s : string) :
  join (String sep EmptyString) (split sep s) = s.
Proof.
  induction s as [|c s IH]; [reflexivity|].
  simpl split. destruct (Ascii.eqb c sep) eqn:E.
  - apply Ascii.eqb_eq in E. subst c.
    destruct (split_cons sep s) as [w [ws Hs]]. rewrite Hs in *.
    rewrite join_cons, IH. reflexivity.
  - destruct (split_cons sep s) as [w [ws Hs]]. rewrite Hs in *.
    destruct ws as [|w' ws].
    + simpl in *. rewrite IH. reflexivity.
    + rewrite join_cons in *. rewrite <- IH. reflexivity.
Qed.

Lemma split_pieces_clean (sep : ascii) (s : string) :
  Forall (fun w => contains sep w = false) (split sep s).
Proof.
  induction s as [|c s IH]; [repeat constructor|].
  simpl split. destruct (Ascii.eqb c sep) eqn:E.
  - constructor; [reflexivity | exact IH].
  - destruct (split_cons sep s) as [w [ws Hs]]. rewrite Hs in *.
    inversion IH as [|? ? Hw Hws]; subst.
    constructor; [|exact Hws]. simpl. rewrite E. exact Hw.
Qed.

Lemma contains_app (c : ascii) (a b : string) :
  contains c (a ++ b) = contains c a || contains c b.
Proof.
  induction a as [|x a IH]; [reflexivity|].
  simpl. rewrite IH. apply orb_assoc.
Qed.

Lemma append_empty_r (s : string) : (s ++ EmptyString)%string = s.
Proof. induction s as [|c s IH]; [reflexivity|]. simpl. f_equal. exact IH. Qed.

(** X7.  The heading splits the greeting at its first space: the first part
    never contains a space.  When the greeting contains a space, the text of
    the heading (first part, a space, the rest) is the greeting itself; when
    it contains none, the first part is the whole greeting, the coloured
    rest is empty and the text is the greeting followed by one space. *)
Theorem heroHeading_roundtrip (greeting : string) :
  contains " " (greetingFirst greeting) = false
  /\ heroHeading greeting
     = (if contains " " greeting then greeting
        else greeting ++ " ")%string
  /\ (if contains " " greeting then True
      else greetingFirst greeting = greeting
           /\ greetingRest greeting = EmptyString).
Proof.
  unfold heroHeading, greetingFirst, greetingRest.
  pose proof (join_split " " greeting) as J.
  pose proof (split_pieces_clean " " greeting) as C.
  destruct (split_cons " " greeting) as [w [ws Hs]]. rewrite Hs in *.
  pose proof (Forall_inv C) as Hw. cbv beta in Hw. cbn [hd tl].
  split; [exact Hw|].
  destruct ws as [|w' ws].
  - simpl in J. subst w. rewrite Hw. simpl.
    repeat split; reflexivity.
  - rewrite join_cons in J.
    assert (G : contains " " greeting = true).
    { rewrite <- J, contains_app. simpl. apply orb_true_r. }
    rewrite G. split; [exact J | exact I].
Qed.

(** * The project gallery, continued *)

(** X8.  The "More Projects" block is rendered exactly when some project is
    not featured; it is absent exactly when the featured grid shows the
    whole list, which is when every project is featured. *)
Theorem showOtherProjects_iff (projects : list Project) :
  (showOtherProjects projects = true
   <-> exists p, In p projects /\ featured p = false)
  /\ (showOtherProjects projects = false
      <-> featuredProjects projects = projects)
  /\ (showOtherProjects projects = false
      <-> Forall (fun p => featured p = true) projects).
Proof.
  unfold showOtherProjects, otherProjects, featuredProjects.
  induction projects as [|p projects [IH1 [IH2 IH3]]].
  - simpl. repeat split; try discriminate; try constructor.
    intros [p [[] _]].
  - simpl. destruct (featured p) eqn:F; simpl.
    + split; [|split].
      * rewrite IH1. split.
        -- intros [q [Hq Fq]]. exists q. auto.
        -- intros [q [[-> | Hq] Fq]]; [congruence | eauto].
      * rewrite IH2. split; [intros ->; reflexivity|].
        intro H. injection H. auto.
      * rewrite IH3. split.
        -- intro H. constructor; assumption.
        -- intro H. inversion H; assumption.
    + split; [|split].
      * split; [|reflexivity]. intros _. exists p. auto.
      * split; [discriminate|]. intro H. exfalso.
        assert (L : (List.length (filter (fun project => featured project)
                                    projects) <= List.length projects)%nat)
          by apply filter_length_le.
        rewrite H in L. simpl in L. lia.
      * split; [discriminate|]. intro H. inversion H. congruence.
Qed.

(** X9.  When the ids of the data file are pairwise distinct, the React
    keys of the cards are distinct inside each grid and over the two grids
    together, and the cards are as many as the projects: every project gets
    one card. *)
Theorem cardKeys_distinct (projects : list Project) :
  NoDup (cardKeys projects) ->
  NoDup (cardKeys (featuredProjects projects))
  /\ NoDup (cardKeys (otherProjects projects))
  /\ NoDup (cardKeys (featuredProjects projects)
            ++ cardKeys (otherProjects projects))
  /\ (List.length (featuredProjects projects)
      + List.length (otherProjects projects))%nat
     = List.length projects.
Proof.
  intro H. unfold cardKeys in *.
  pose proof (filter_split_perm _ (fun project => featured project) projects)
    as P.
  fold (featuredProjects projects) in P.
  fold (otherProjects projects) in P.
  assert (A : NoDup (map id (featuredProjects projects)
                     ++ map id (otherProjects projects))).
  { rewrite <- map_app.
    apply (Permutation_NoDup (l := map id projects)); [|exact H].
    symmetry. apply Permutation_map. exact P. }
  split; [apply (NoDup_app_remove_r _ _ A)|].
  split; [apply (NoDup_app_remove_l _ _ A)|].
  split; [exact A|].
  rewrite <- length_app. apply Permutation_length. exact P.
Qed.

Lemma cardKeys_distinct_witness :
  let projects :=
    [project_stub 1 true; project_stub 2 false; project_stub 3 true] in
  NoDup (cardKeys (featuredProjects projects))
  /\ NoDup (cardKeys (otherProjects projects))
  /\ NoDup (cardKeys (featuredProjects projects)
            ++ cardKeys (otherProjects projects))
  /\ (List.length (featuredProjects projects)
      + List.length (otherProjects projects))%nat
     = List.length projects.
Proof.
  apply (cardKeys_distinct
           [project_stub 1 true; project_stub 2 false; project_stub 3 true]).
  repeat constructor; simpl; intuition discriminate.
Defined.

(** * The life cycle of the counter *)

Section CounterLifeCycle.

Context {num : Type} {N : JSNumber num}.
Variable value : num.

Lemma running_cleanup (c : Counter num) : running (cleanup c) = false.
Proof.
  unfold cleanup, running.
  destruct (timer c) eqn:E; simpl; rewrite ?E; reflexivity.
Qed.

Lemma handle_halted (e : Event) (c : Counter num) :
  isInView c = true -> running c = false -> handle value e c = c.
Proof.
  intros V R. destruct e as [b|]; simpl.
  - apply visibility_latched. exact V.
  - apply tick_halted. exact R.
Qed.

(** X10.  After the clean-up of the effect (the component is unmounted, or
    the effect is about to run again) the interval is dead: however often
    the host timer fires, [setCount] is not called and nothing changes; the
    clean-up itself leaves the shown value as it is. *)
Theorem cleanup_silences (c : Counter num) (n : nat) :
  count (cleanup c) = count c
  /\ displayed value (repeat Tick n) (cleanup c) = []
  /\ run value (repeat Tick n) (cleanup c) = cleanup c.
Proof.
  split; [unfold cleanup; destruct (timer c); reflexivity|].
  split.
  - apply displayed_halted. apply running_cleanup.
  - apply run_halted. apply running_cleanup.
Qed.

(** X11.  A counter that has been triggered and whose interval is cleared is
    at rest for good: no sequence of timer firings and visibility signals
    calls [setCount] or changes the component. *)
Theorem finished_is_final (es : list Event) (c : Counter num) :
  isInView c = true ->
  running c = false ->
  run value es c = c /\ displayed value es c = [].
Proof.
  intros V R. induction es as [|e es [IH1 IH2]]; [split; reflexivity|].
  split.
  - simpl. rewrite (handle_halted e c V R). exact IH1.
  - simpl. rewrite (handle_halted e c V R), R.
    destruct e; exact IH2.
Qed.


End CounterLifeCycle.

Lemma finished_is_final_witness :
  run 10%Q [Tick; Visible false; Visible true; Tick] (halted 10%Q 10%Q)
  = halted 10%Q 10%Q
  /\ displayed 10%Q [Tick; Visible false; Visible true; Tick]
       (halted 10%Q 10%Q) = [].
Proof.
  apply (finished_is_final 10%Q [Tick; Visible false; Visible true; Tick]
           (halted 10%Q 10%Q)); reflexivity.
Defined.

(** * Doubles: targets on which the counter does not stop *)

Lemma accumulate_fixed {num : Type} {N : JSNumber num} (value s : num) :
  add s (increment value) = s ->
  forall k, accumulate value k s = s.
Proof.
  intros H k. induction k as [|k IH]; [reflexivity|].
  rewrite accumulate_shift, H. exact IH.
Qed.

Lemma spec_accumulator_stuck {num : Type} {N : JSNumber num}
    (value s : num) :
  add (lit 0) (increment value) = s ->
  add s (increment value) = s ->
  forall k, spec_accumulator value (S k) = s.
Proof.
  intros H0 H k.
  rewrite spec_accumulator_accumulate, accumulate_shift, H0.
  apply accumulate_fixed. exact H.
Qed.

Lemma samples_stuck {num : Type} {N : JSNumber num} (value s : num) :
  add (lit 0) (increment value) = s ->
  add s (increment value) = s ->
  geb s value = false ->
  forall n,
    samples value n = repeat (floor s) n
    /\ running (run value (repeat Tick n) triggered) = true.
Proof.
  intros H0 H G n.
  destruct (samples_below value n) as [S1 [_ R1]].
  { intros [|k] Hk; [lia|].
    rewrite (spec_accumulator_stuck value s H0 H). exact G. }
  split; [|exact R1]. rewrite S1.
  rewrite <- seq_shift, map_map.
  rewrite (map_ext _ (fun _ => floor s)).
  - rewrite map_const, length_seq. reflexivity.
  - intro k. rewrite (spec_accumulator_stuck value s H0 H). reflexivity.
Qed.

(** X16.  Under IEEE-754 doubles the counter does not always come to its
    end.  With target NaN every test [start >= end] fails, so every firing
    shows NaN and the interval is never cleared.  With the smallest positive
    double as target the increment rounds to zero, so the accumulator stays
    at 0, every firing shows 0 and the target is never reached. *)
Theorem Binary64_never_stops (n : nat) :
  (samples S754_nan n = repeat S754_nan n
   /\ running (run S754_nan (repeat Tick n) triggered) = true)
  /\ (SFltb (lit 0) B64_min_positive = true
      /\ increment B64_min_positive = S754_zero false
      /\ samples B64_min_positive n = repeat (S754_zero false) n
      /\ running (run B64_min_positive (repeat Tick n) triggered) = true).
Proof.
  split.
  - exact (samples_stuck S754_nan S754_nan eq_refl eq_refl eq_refl n).
  - split; [reflexivity|]. split; [reflexivity|].
    exact (samples_stuck B64_min_positive (S754_zero false)
             eq_refl eq_refl eq_refl n).
Qed.
